(** * Orbit [sim/utils.py]: USD utilities

    A shallow embedding of the attribute setters and of the two decorators
    [apply_nested] and [clone] of
    [source/extensions/omni.isaac.orbit/omni/isaac/orbit/sim/utils.py],
    with the properties the specification states about them.

    Modelling conventions.
    - A Python [str] is a Rocq [string]: the sequence of its UTF-8 bytes.
      The three string operations of the file ([rsplit("/", 1)],
      [replace(" ", "_")] and a match against [[a-zA-Z0-9/_]]) act on ASCII
      characters only, and no byte of a multi-byte UTF-8 sequence is ASCII,
      so they commute with the encoding.
    - A Python exception is a value of [Exc]; a function that can raise
      returns [Exc + A].
    - The host (the USD stage, the simulator) is state that is passed
      explicitly; calls into the host are recorded in a trace of events,
      which is what "is invoked", "is passed to" and "is emitted" are
      stated about. *)

From Stdlib Require Import List String Ascii Bool Arith ZArith Lia Permutation.
From Equations Require Import Equations.
Import ListNotations.
Local Open Scope string_scope.
Local Open Scope list_scope.
Local Open Scope nat_scope.

Set Warnings "-register-all".

(** ** Python values and exceptions *)

(** The exceptions raised in the file, with the message they carry
    (a bare [raise ValueError] carries the empty message). *)
Inductive Exc : Type :=
| ValueError (msg : string)
| RuntimeError (msg : string)
| TypeError (msg : string)
| NotImplementedError (msg : string)
| IndexError (msg : string).

(** The dynamically typed values the file inspects with [isinstance] and
    [is None].  A float is its IEEE-754 binary64 bit pattern. *)
Inductive PyVal : Type :=
| PyNone
| PyBool (b : bool)
| PyInt (z : Z)
| PyFloat (bits : Z)
| PyStr (s : string)
| PyTuple (items : list PyVal)
| PyList (items : list PyVal).

(** ** Calls into the host *)

(** A computation that works on a world [W] (the host state and the trace
    of calls made into the host) and returns a value or raises. *)
Definition M (W A : Type) : Type := W -> W * (Exc + A).

Definition ret {W A : Type} (a : A) : M W A := fun w => (w, inr a).

Definition raise {W A : Type} (e : Exc) : M W A := fun w => (w, inl e).

Definition bind {W A B : Type} (m : M W A) (k : A -> M W B) : M W B :=
  fun w =>
    match m w with
    | (w', inl e) => (w', inl e)
    | (w', inr a) => k a w'
    end.

Notation "x <- m ;; k" := (bind m (fun x => k))
  (at level 61, m at next level, right associativity).
Notation "m ;;; k" := (bind m (fun _ => k))
  (at level 61, right associativity).

(** [for x in l: body(x)]. *)
Fixpoint for_each {W A : Type} (l : list A) (body : A -> M W unit) : M W unit :=
  match l with
  | [] => ret tt
  | x :: l' => body x ;;; for_each l' body
  end.

(** ** String operations *)

Module PyStr.

(** [s.replace(" ", "_")]: every space becomes an underscore. *)
Fixpoint replace_space (s : string) : string :=
  match s with
  | EmptyString => EmptyString
  | String c r =>
      String (if Ascii.eqb c " "%char then "_"%char else c) (replace_space r)
  end.

(** [s.rsplit("/", 1)] as the two-element unpacking [a, b = ...] sees it:
    the text before the last slash and the text after it, or [None] when
    [s] has no slash (the list then has one element and the unpacking
    raises [ValueError]). *)
Fixpoint rsplit_slash (s : string) : option (string * string) :=
  match s with
  | EmptyString => None
  | String c r =>
      match rsplit_slash r with
      | Some (a, b) => Some (String c a, b)
      | None => if Ascii.eqb c "/"%char then Some (EmptyString, r) else None
      end
  end.

(** The character class [[a-zA-Z0-9/_]]. *)
Definition in_class (c : ascii) : bool :=
  let n := nat_of_ascii c in
  (((97 <=? n) && (n <=? 122))       (* a-z *)
   || ((65 <=? n) && (n <=? 90))     (* A-Z *)
   || ((48 <=? n) && (n <=? 57))     (* 0-9 *)
   || (n =? 47)                      (* /   *)
   || (n =? 95))%nat.                (* _   *)

(** The newline character, [chr(10)]. *)
Definition newline : ascii := ascii_of_nat 10.

(** Where [$] matches (no [re.MULTILINE]): at the end of the string, or
    just before a newline that is the last character of the string. *)
Definition at_dollar (rest : string) : bool :=
  match rest with
  | EmptyString => true
  | String c EmptyString => Ascii.eqb c newline
  | _ => false
  end.

(** What is left of [s] after the longest run of class characters. *)
Fixpoint skip_class (s : string) : string :=
  match s with
  | EmptyString => EmptyString
  | String c r => if in_class c then skip_class r else s
  end.

(** [re.match(r"^[a-zA-Z0-9/_]+$", s) is not None].  The class does not
    contain the newline, so the only position at which [$] can follow
    [[...]+] is the end of the longest run. *)
Definition re_match_prim_path (s : string) : bool :=
  match s with
  | EmptyString => false
  | String c r => in_class c && at_dollar (skip_class r)
  end.

(** All characters of [s] are in the class. *)
Fixpoint all_in_class (s : string) : bool :=
  match s with
  | EmptyString => true
  | String c r => in_class c && all_in_class r
  end.

(** Some character of [s] is outside the class. *)
Definition has_char_outside_class (s : string) : bool :=
  negb (all_in_class s).

(** [c in s], for a character [c]. *)
Fixpoint has_char (c : ascii) (s : string) : bool :=
  match s with
  | EmptyString => false
  | String c' r => Ascii.eqb c' c || has_char c r
  end.

(** [s.endswith(chr(10))]. *)
Fixpoint ends_with_newline (s : string) : bool :=
  match s with
  | EmptyString => false
  | String c EmptyString => Ascii.eqb c newline
  | String _ r => ends_with_newline r
  end.

End PyStr.

(** ** Facts about the string operations *)

Module PyStrFacts.

Import PyStr.

Lemma replace_space_length (s : string) :
  String.length (replace_space s) = String.length s.
Proof. induction s as [|c r IH]; simpl; [reflexivity | rewrite IH; reflexivity]. Qed.

(** No space is left. *)
Lemma replace_space_no_space (s : string) :
  has_char " "%char (replace_space s) = false.
Proof.
  induction s as [|c r IH]; simpl; [reflexivity|]. rewrite IH.
  destruct (Ascii.eqb c " "%char) eqn:Hc; [reflexivity|].
  rewrite Hc. reflexivity.
Qed.

(** Each character is the one of [s], or an underscore where [s] has a
    space. *)
Lemma replace_space_get (s : string) (n : nat) :
  String.get n (replace_space s) =
  option_map (fun c => if Ascii.eqb c " "%char then "_"%char else c)
             (String.get n s).
Proof.
  revert n. induction s as [|c r IH]; intros n; simpl; [reflexivity|].
  destruct n; [reflexivity | apply IH].
Qed.

(** A string without a space is unchanged. *)
Lemma replace_space_unchanged (s : string) :
  has_char " "%char s = false -> replace_space s = s.
Proof.
  induction s as [|c r IH]; simpl; [reflexivity|].
  intros H. apply orb_false_elim in H as [Hc Hr].
  rewrite Hc, (IH Hr). reflexivity.
Qed.

Lemma rsplit_slash_none (s : string) :
  rsplit_slash s = None <-> has_char "/"%char s = false.
Proof.
  induction s as [|c r IH]; simpl; [tauto|].
  destruct (rsplit_slash r) as [[a b]|].
  - split; [discriminate|]. intros H. apply orb_false_elim in H as [_ Hr].
    apply IH in Hr. discriminate.
  - destruct (Ascii.eqb c "/"%char); simpl; split; try discriminate; auto.
    intros _. apply IH. reflexivity.
Qed.

(** The split is at the last slash. *)
Lemma rsplit_slash_some (s a b : string) :
  rsplit_slash s = Some (a, b) ->
  s = (a ++ "/" ++ b)%string /\ has_char "/"%char b = false.
Proof.
  revert a. induction s as [|c r IH]; intros a; simpl; [discriminate|].
  destruct (rsplit_slash r) as [[a' b']|] eqn:Hr.
  - intros H. injection H as <- <-.
    destruct (IH a' eq_refl) as [-> Hb]. split; [reflexivity | exact Hb].
  - destruct (Ascii.eqb c "/"%char) eqn:Hc; [|discriminate].
    intros H. injection H as <- <-.
    apply Ascii.eqb_eq in Hc. subst c. split; [reflexivity|].
    apply rsplit_slash_none. exact Hr.
Qed.

Lemma skip_class_all (s : string) :
  all_in_class s = true -> skip_class s = EmptyString.
Proof.
  induction s as [|c r IH]; simpl; [reflexivity|].
  intros H. apply andb_prop in H as [Hc Hr]. rewrite Hc. exact (IH Hr).
Qed.

Lemma newline_not_in_class : in_class newline = false.
Proof. reflexivity. Qed.

(** A string all of whose characters are in the class matches, unless it is
    empty. *)
Lemma re_match_all_in_class (s : string) :
  all_in_class s = true -> s <> EmptyString -> re_match_prim_path s = true.
Proof.
  destruct s as [|c r]; [congruence|]. simpl. intros H _.
  apply andb_prop in H as [Hc Hr]. rewrite Hc, (skip_class_all _ Hr).
  reflexivity.
Qed.

(** A string that matches is all in the class, or ends with a newline. *)
Lemma re_match_outside_class (s : string) :
  re_match_prim_path s = true ->
  all_in_class s = true \/ ends_with_newline s = true.
Proof.
  destruct s as [|c r]; [discriminate|]. simpl. intros H.
  apply andb_prop in H as [Hc H]. rewrite Hc. simpl.
  assert (Hrun : forall t, at_dollar (skip_class t) = true ->
            all_in_class t = true \/
            (t <> EmptyString /\ ends_with_newline t = true)).
  { induction t as [|c' t IHt]; simpl; [auto|].
    destruct (in_class c') eqn:Hc'.
    - intros Ht. destruct (IHt Ht) as [Hall|[Hne Hend]]; [auto|].
      right. split; [discriminate|]. destruct t; [congruence | exact Hend].
    - intros Ht. right. split; [discriminate|].
      simpl in Ht. destruct t; [exact Ht | discriminate]. }
  destruct (Hrun r H) as [Hall|[Hne Hend]]; [auto|].
  right. destruct r; [congruence | exact Hend].
Qed.

End PyStrFacts.

(** ** The scene graph *)

(** A prim of the stage as the decorators read it: its path, whether it is
    an instance, and its children in the order [GetChildren] returns them. *)
Inductive Prim : Type :=
| mkPrim (pathString : string) (is_instance : bool) (children : list Prim).

Definition GetPath (p : Prim) : string :=
  match p with mkPrim s _ _ => s end.
Definition IsInstance (p : Prim) : bool :=
  match p with mkPrim _ i _ => i end.
Definition GetChildren (p : Prim) : list Prim :=
  match p with mkPrim _ _ cs => cs end.

(** The strict descendants of a prim, in pre-order. *)
Fixpoint descendants (p : Prim) : list Prim :=
  match p with
  | mkPrim _ _ cs =>
      (fix over (l : list Prim) : list Prim :=
         match l with
         | [] => []
         | c :: l' => (c :: descendants c) ++ over l'
         end) cs
  end.

(** A prim together with its descendants. *)
Definition subtree (p : Prim) : list Prim := p :: descendants p.

(** All prims reachable from a list of prims. *)
Definition forest (l : list Prim) : list Prim := flat_map subtree l.

(** [stage.GetPrimAtPath(prim_path)] on a stage given by its pseudo-root:
    the prim with that path, or [None] for the invalid prim. *)
Definition GetPrimAtPath (stage : Prim) (prim_path : string) : option Prim :=
  find (fun p => String.eqb (GetPath p) prim_path) (subtree stage).

(** ** Lists without duplicates *)

Section NoDupFacts.

Context {A B : Type}.

Lemma NoDup_app_disjoint (l1 l2 : list A) :
  NoDup (l1 ++ l2) -> forall a, In a l1 -> In a l2 -> False.
Proof.
  induction l1 as [|x l1 IH]; simpl; intros Hnd a H1 H2; [exact H1|].
  inversion Hnd as [|? ? Hx Hnd']; subst.
  destruct H1 as [->|H1].
  - apply Hx, in_or_app. right. exact H2.
  - exact (IH Hnd' a H1 H2).
Qed.

Lemma NoDup_map_injective (f : A -> B) (l : list A) :
  NoDup (map f l) -> forall a b, In a l -> In b l -> f a = f b -> a = b.
Proof.
  induction l as [|x l IH]; simpl; intros Hnd a b Ha Hb Hab; [contradiction|].
  inversion Hnd as [|? ? Hx Hnd']; subst.
  destruct Ha as [->|Ha], Hb as [->|Hb]; auto.
  - exfalso. apply Hx. rewrite Hab. apply in_map. exact Hb.
  - exfalso. apply Hx. rewrite <- Hab. apply in_map. exact Ha.
Qed.

Lemma NoDup_flat_map_part (f : A -> B) (g : A -> list A) (l : list A) :
  NoDup (map f (flat_map g l)) -> forall c, In c l -> NoDup (map f (g c)).
Proof.
  induction l as [|x l IH]; simpl; intros Hnd c Hc; [contradiction|].
  rewrite map_app in Hnd.
  destruct Hc as [->|Hc].
  - exact (NoDup_app_remove_r _ _ Hnd).
  - exact (IH (NoDup_app_remove_l _ _ Hnd) c Hc).
Qed.

End NoDupFacts.

(** ** Descendants *)

(** Induction on a prim with the hypothesis for all its children. *)
Lemma Prim_induction (P : Prim -> Prop) :
  (forall s i cs, Forall P cs -> P (mkPrim s i cs)) -> forall p, P p.
Proof.
  intros step. fix IH 1. intros [s i cs]. apply step.
  induction cs as [|c cs IHcs]; constructor; [apply IH | exact IHcs].
Qed.

Lemma descendants_children (p : Prim) :
  descendants p = flat_map subtree (GetChildren p).
Proof.
  destruct p as [s i cs]; simpl.
  induction cs as [|c cs IH]; simpl; [reflexivity|].
  rewrite IH. reflexivity.
Qed.

(** A descendant of a descendant is a descendant. *)
Lemma descendants_trans (s : Prim) :
  forall n d, In n (descendants s) -> In d (descendants n) ->
  In d (descendants s).
Proof.
  induction s as [p i cs IH] using Prim_induction. intros n d Hn Hd.
  rewrite descendants_children in Hn. rewrite descendants_children.
  simpl in Hn |- *.
  apply in_flat_map in Hn as (c & Hc & Hn).
  apply in_flat_map. exists c. split; [exact Hc|].
  rewrite Forall_forall in IH.
  destruct Hn as [->|Hn]; [right; exact Hd|].
  right. exact (IH c Hc n d Hn Hd).
Qed.

(** The forest of a queue contains the descendants of its members. *)
Lemma forest_closed (q : list Prim) (n d : Prim) :
  In n (forest q) -> In d (descendants n) -> In d (forest q).
Proof.
  unfold forest. intros Hn Hd.
  apply in_flat_map in Hn as (c & Hc & Hn).
  apply in_flat_map. exists c. split; [exact Hc|].
  destruct Hn as [->|Hn]; [right; exact Hd|].
  right. exact (descendants_trans _ _ _ Hn Hd).
Qed.

(** Paths that identify the prims of a subtree identify the prims of each
    of its subtrees. *)
Lemma subtree_NoDup (s : Prim) :
  NoDup (map GetPath (subtree s)) ->
  forall n, In n (subtree s) -> NoDup (map GetPath (subtree n)).
Proof.
  induction s as [p i cs IH] using Prim_induction. intros Hnd n Hn.
  destruct Hn as [<-|Hn]; [exact Hnd|].
  unfold subtree in Hnd. rewrite descendants_children in Hn, Hnd.
  simpl in Hn, Hnd. inversion Hnd as [|? ? _ Hnd']; subst.
  apply in_flat_map in Hn as (c & Hc & Hn).
  rewrite Forall_forall in IH.
  apply (IH c Hc); [|exact Hn].
  exact (NoDup_flat_map_part _ _ _ Hnd' c Hc).
Qed.

(** ** [apply_nested] *)

Module ApplyNested.

Section Wrapper.

(** The state of the host that the decorated function reads and writes. *)
Context {Host : Type}.

(** The decorated function, with its [*args] and [**kwargs] fixed: it takes
    the prim path, works on the host and returns whether it succeeded.  The
    functions decorated in the file bind materials and set schema
    attributes; they do not add, remove or re-parent prims, so the tree the
    walk reads ([IsInstance], [GetChildren]) is the one it started from. *)
Variable func : string -> Host -> bool * Host.

(** [func.__name__]. *)
Variable func_name : string.

(** How an f-string renders a list of path strings ([repr] of the list). *)
Variable repr_paths : list string -> string.

(** The local variables of the loop other than the queue, the host state,
    and the calls of [func] made so far with what each returned. *)
Record Walk : Type := mkWalk {
  count_success : nat;
  instanced_prim_paths : list string;
  calls : list (string * bool);
  host : Host
}.

(** The branches of the loop body, as updates of the local variables. *)
Definition record_instance (child_prim_path : string) (w : Walk) : Walk :=
  {| count_success := count_success w;
     instanced_prim_paths := instanced_prim_paths w ++ [child_prim_path];
     calls := calls w;
     host := host w |}.

Definition record_call (child_prim_path : string) (success : bool)
    (host' : Host) (w : Walk) : Walk :=
  {| count_success := if success then count_success w + 1 else count_success w;
     instanced_prim_paths := instanced_prim_paths w;
     calls := calls w ++ [(child_prim_path, success)];
     host := host' |}.

Lemma descendants_forest (p : Prim) : descendants p = forest (GetChildren p).
Proof. apply descendants_children. Qed.

Lemma forest_app (l1 l2 : list Prim) : forest (l1 ++ l2) = forest l1 ++ forest l2.
Proof. apply flat_map_app. Qed.

Lemma forest_cons (p : Prim) (l : list Prim) :
  forest (p :: l) = p :: forest (GetChildren p) ++ forest l.
Proof. unfold forest at 1; simpl. rewrite descendants_forest. reflexivity. Qed.

(** The [while len(all_prims) > 0] loop.  Each iteration removes one prim
    from the prims still reachable from the queue, which is why it ends. *)
Equations? while_loop (all_prims : list Prim) (w : Walk) : Walk
  by wf (List.length (forest all_prims)) lt :=
while_loop [] w := w;
while_loop (child_prim :: all_prims) w with IsInstance child_prim := {
  | true := while_loop all_prims (record_instance (GetPath child_prim) w)
  | false with func (GetPath child_prim) (host w) := {
    | (true, host') :=
        while_loop all_prims (record_call (GetPath child_prim) true host' w)
    | (false, host') :=
        while_loop (all_prims ++ GetChildren child_prim)
                   (record_call (GetPath child_prim) false host' w) } }.
Proof.
  all: rewrite ?forest_app, ?descendants_forest, ?List.length_app; lia.
Qed.

(** The local variables at loop entry. *)
Definition start (h : Host) : Walk :=
  {| count_success := 0; instanced_prim_paths := []; calls := []; host := h |}.

(** The fixed middle part of the warning: the literals between the root
    path and the list of instanced prim paths, up to the label of the list. *)
Definition warning_reasons : string :=
  (" This might be because of the following reasons:"
   ++ String (ascii_of_nat 10) (String (ascii_of_nat 9)
        "(1) The desired attribute does not exist on any of the prims.")
   ++ String (ascii_of_nat 10) (String (ascii_of_nat 9)
        "(2) The desired attribute exists on an instanced prim.")
   ++ String (ascii_of_nat 10) (String (ascii_of_nat 9)
        (String (ascii_of_nat 9) EmptyString)))%string.

(** The text of the warning. *)
Definition warning (prim_path : string) (instanced : list string) : string :=
  ("Could not perform '" ++ func_name ++ "' on any prims under: '" ++ prim_path
   ++ "'." ++ warning_reasons
   ++ "Discovered list of instanced prim paths: "
   ++ repr_paths instanced)%string.

(** What a call of the wrapper that returns leaves behind: the final local
    variables and host state, and the messages given to [carb.log_warn]. *)
Record Outcome : Type := mkOutcome {
  walked : Walk;
  log_warn : list string
}.

(** The stage the wrapper works on: the [stage] argument bound from the call
    ([None] when it is not given or is [None]), and otherwise what
    [stage_utils.get_current_stage()] returns. *)
Definition resolved_stage (current_stage : Prim) (stage : option Prim) : Prim :=
  match stage with Some s => s | None => current_stage end.

(** The wrapper. *)
Definition wrapper (current_stage : Prim) (stage : option Prim)
    (prim_path : string) (h : Host) : Exc + Outcome :=
  match GetPrimAtPath (resolved_stage current_stage stage) prim_path with
  | None => inl (ValueError ("Prim at path '" ++ prim_path ++ "' is not valid.")%string)
  | Some prim =>
      let w := while_loop [prim] (start h) in
      inr {| walked := w;
             log_warn := if count_success w =? 0
                         then [warning prim_path (instanced_prim_paths w)]
                         else [] |}
  end.

(** *** Reasoning about the walk *)

(** Induction along the iterations of the loop: the queue after an iteration
    is its tail, or its tail followed by the children of its head. *)
Lemma queue_ind (P : list Prim -> Prop) :
  P [] ->
  (forall c rest, P rest -> P (rest ++ GetChildren c) -> P (c :: rest)) ->
  forall q, P q.
Proof.
  intros Hnil Hcons q.
  remember (List.length (forest q)) as n eqn:Hn.
  revert q Hn. induction n as [n IH] using lt_wf_ind. intros q Hn.
  destruct q as [|c rest]; [exact Hnil|].
  rewrite forest_cons in Hn. simpl in Hn. rewrite List.length_app in Hn.
  apply Hcons.
  - apply (IH (List.length (forest rest))); [lia | reflexivity].
  - apply (IH (List.length (forest (rest ++ GetChildren c)))); [|reflexivity].
    rewrite forest_app, List.length_app. lia.
Qed.

(** One iteration of the loop. *)
Lemma while_loop_cons (c : Prim) (rest : list Prim) (w : Walk) :
  while_loop (c :: rest) w =
  if IsInstance c then while_loop rest (record_instance (GetPath c) w)
  else
    let (success, host') := func (GetPath c) (host w) in
    while_loop (if success then rest else rest ++ GetChildren c)
               (record_call (GetPath c) success host' w).
Proof.
  simp while_loop. destruct (IsInstance c); simpl; [reflexivity|].
  destruct (func (GetPath c) (host w)) as [[|] h']; reflexivity.
Qed.

(** What a walk adds to the local variables it starts from. *)
Definition extend (w r : Walk) : Walk :=
  {| count_success := count_success w + count_success r;
     instanced_prim_paths := instanced_prim_paths w ++ instanced_prim_paths r;
     calls := calls w ++ calls r;
     host := host r |}.

Lemma while_loop_extend (q : list Prim) :
  forall w, while_loop q w = extend w (while_loop q (start (host w))).
Proof.
  induction q as [|c rest IHrest IHchildren] using queue_ind; intros w.
  - simp while_loop. destruct w; unfold extend, start; simpl.
    rewrite !app_nil_r, Nat.add_0_r. reflexivity.
  - rewrite !while_loop_cons. simpl host.
    destruct (IsInstance c).
    + rewrite (IHrest (record_instance _ w)).
      rewrite (IHrest (record_instance _ (start _))).
      unfold extend, record_instance, start; simpl.
      rewrite <- !app_assoc. reflexivity.
    + destruct (func (GetPath c) (host w)) as [[|] h'].
      * rewrite (IHrest (record_call _ true h' w)).
        rewrite (IHrest (record_call _ true h' (start _))).
        unfold extend, record_call, start; simpl.
        rewrite <- !app_assoc, <- !Nat.add_assoc. reflexivity.
      * rewrite (IHchildren (record_call _ false h' w)).
        rewrite (IHchildren (record_call _ false h' (start _))).
        unfold extend, record_call, start; simpl.
        rewrite <- !app_assoc. reflexivity.
Qed.

(** The first iteration of a walk from loop entry. *)
Lemma while_loop_start (c : Prim) (rest : list Prim) (h : Host) :
  while_loop (c :: rest) (start h) =
  if IsInstance c
  then extend (record_instance (GetPath c) (start h)) (while_loop rest (start h))
  else
    let (success, host') := func (GetPath c) h in
    extend (record_call (GetPath c) success host' (start h))
           (while_loop (if success then rest else rest ++ GetChildren c)
                       (start host')).
Proof.
  rewrite while_loop_cons. simpl host.
  destruct (IsInstance c).
  - apply while_loop_extend.
  - destruct (func (GetPath c) h) as [success h'].
    apply (while_loop_extend _ (record_call _ success h' (start h))).
Qed.

(** The paths of the prims taken from the queue: those recorded as
    instanced and those passed to [func]. *)
Definition visited (w : Walk) : list string :=
  instanced_prim_paths w ++ map fst (calls w).

(** [func] succeeded at the prim [n]. *)
Definition succeeded (n : Prim) (w : Walk) : Prop :=
  In (GetPath n, true) (calls w).

(** [n] was taken from the queue and its children were not added. *)
Definition stopped_at (n : Prim) (w : Walk) : Prop :=
  In (GetPath n) (instanced_prim_paths w) \/ succeeded n w.

Lemma in_forest_cons (n c : Prim) (rest : list Prim) :
  In n (forest (c :: rest)) <->
  n = c \/ In n (descendants c) \/ In n (forest rest).
Proof.
  unfold forest; simpl. rewrite in_app_iff. intuition congruence.
Qed.

Lemma in_forest_enqueue (n c : Prim) (rest : list Prim) :
  In n (forest (rest ++ GetChildren c)) <->
  In n (forest rest) \/ In n (descendants c).
Proof. rewrite forest_app, in_app_iff, descendants_forest. reflexivity. Qed.

(** Closes a goal that asks for a prim of the forest of [c :: rest]. *)
Ltac in_queue n :=
  exists n; split; [apply in_forest_cons; tauto | auto].

(** Every call of [func] is at a prim of the queue's forest that is not an
    instance. *)
Lemma calls_sound (q : list Prim) :
  forall h p b, In (p, b) (calls (while_loop q (start h))) ->
  exists n, In n (forest q) /\ GetPath n = p /\ IsInstance n = false.
Proof.
  induction q as [|c rest IHrest IHchildren] using queue_ind; intros h p b.
  - simp while_loop. simpl. tauto.
  - rewrite while_loop_start.
    destruct (IsInstance c) eqn:Hinst.
    + simpl. intros Hin. destruct (IHrest _ _ _ Hin) as (n & Hn & Hp & Hi).
      in_queue n.
    + destruct (func (GetPath c) h) as [[|] h']; simpl;
        (intros [Heq|Hin];
         [injection Heq as Hp _; in_queue c|]).
      * destruct (IHrest _ _ _ Hin) as (n & Hn & Hp & Hi).
        in_queue n.
      * destruct (IHchildren _ _ _ Hin) as (n & Hn & Hp & Hi).
        apply in_forest_enqueue in Hn. in_queue n.
Qed.

(** Every recorded instanced path is the path of an instance of the
    queue's forest. *)
Lemma instanced_sound (q : list Prim) :
  forall h p, In p (instanced_prim_paths (while_loop q (start h))) ->
  exists n, In n (forest q) /\ GetPath n = p /\ IsInstance n = true.
Proof.
  induction q as [|c rest IHrest IHchildren] using queue_ind; intros h p.
  - simp while_loop. simpl. tauto.
  - rewrite while_loop_start.
    destruct (IsInstance c) eqn:Hinst.
    + simpl. intros [Heq|Hin].
      * in_queue c.
      * destruct (IHrest _ _ Hin) as (n & Hn & Hp & Hi).
        in_queue n.
    + destruct (func (GetPath c) h) as [[|] h']; simpl; intros Hin.
      * destruct (IHrest _ _ Hin) as (n & Hn & Hp & Hi).
        in_queue n.
      * destruct (IHchildren _ _ Hin) as (n & Hn & Hp & Hi).
        apply in_forest_enqueue in Hn. in_queue n.
Qed.

Lemma visited_sound (q : list Prim) (h : Host) (p : string) :
  In p (visited (while_loop q (start h))) -> In p (map GetPath (forest q)).
Proof.
  unfold visited. rewrite in_app_iff, in_map_iff.
  intros [Hin|((p', b) & Hp & Hin)]; [|simpl in Hp; subst p'].
  - destruct (instanced_sound _ _ _ Hin) as (n & Hn & Hp & _).
    subst. apply in_map. exact Hn.
  - destruct (calls_sound _ _ _ _ Hin) as (n & Hn & Hp & _).
    subst. apply in_map. exact Hn.
Qed.

(** The success counter counts the calls of [func] that returned true. *)
Lemma count_success_calls (q : list Prim) :
  forall h, count_success (while_loop q (start h)) =
            List.length (filter snd (calls (while_loop q (start h)))).
Proof.
  induction q as [|c rest IHrest IHchildren] using queue_ind; intros h.
  - simp while_loop. reflexivity.
  - rewrite while_loop_start.
    destruct (IsInstance c); simpl; [apply IHrest|].
    destruct (func (GetPath c) h) as [[|] h']; simpl.
    + rewrite IHrest. reflexivity.
    + apply IHchildren.
Qed.

(** What one iteration adds to the visited paths and to the prims at which
    the walk stopped. *)
Lemma in_visited_instance (x p : string) (h : Host) (r : Walk) :
  In x (visited (extend (record_instance p (start h)) r)) <->
  p = x \/ In x (visited r).
Proof. unfold visited; simpl. reflexivity. Qed.

Lemma in_visited_call (x p : string) (b : bool) (h h' : Host) (r : Walk) :
  In x (visited (extend (record_call p b h' (start h)) r)) <->
  p = x \/ In x (visited r).
Proof.
  unfold visited; simpl. rewrite !in_app_iff. simpl. tauto.
Qed.

Lemma stopped_at_instance (n : Prim) (p : string) (h : Host) (r : Walk) :
  stopped_at n (extend (record_instance p (start h)) r) <->
  p = GetPath n \/ stopped_at n r.
Proof. unfold stopped_at, succeeded; simpl. tauto. Qed.

Lemma stopped_at_call (n : Prim) (p : string) (b : bool) (h h' : Host)
    (r : Walk) :
  stopped_at n (extend (record_call p b h' (start h)) r) <->
  (p = GetPath n /\ b = true) \/ stopped_at n r.
Proof.
  unfold stopped_at, succeeded; simpl. split.
  - intros [H|[H|H]]; [tauto| |tauto]. injection H as -> ->. auto.
  - intros [[-> ->]|[H|H]]; auto.
Qed.

Lemma stopped_at_visited (n : Prim) (r : Walk) :
  stopped_at n r -> In (GetPath n) (visited r).
Proof.
  unfold stopped_at, succeeded, visited. rewrite in_app_iff.
  intros [H|H]; [left; exact H|right].
  apply (in_map fst) in H. exact H.
Qed.

(** What distinct paths in the forest of a queue give for its head. *)
Lemma NoDup_queue (c : Prim) (rest : list Prim) :
  NoDup (map GetPath (forest (c :: rest))) ->
  ~ In (GetPath c) (map GetPath (descendants c)) /\
  ~ In (GetPath c) (map GetPath (forest rest)) /\
  (forall x, In x (map GetPath (descendants c)) ->
             In x (map GetPath (forest rest)) -> False) /\
  NoDup (map GetPath (forest rest)) /\
  NoDup (map GetPath (forest (rest ++ GetChildren c))).
Proof.
  unfold forest at 1; simpl. rewrite map_app. intros Hnd.
  inversion Hnd as [|? ? Hc Hnd']; subst.
  rewrite in_app_iff in Hc.
  rewrite forest_app, map_app, <- descendants_forest.
  repeat split; try tauto.
  - exact (NoDup_app_disjoint _ _ Hnd').
  - exact (NoDup_app_remove_l _ _ Hnd').
  - exact (Permutation_NoDup (Permutation_app_comm _ _) Hnd').
Qed.

(** The pruning invariant: when paths identify the prims reachable from the
    queue, no descendant of a prim at which the walk stopped (an instance,
    or a prim at which [func] succeeded) is taken from the queue. *)
Lemma descendants_pruned (q : list Prim) :
  forall h, NoDup (map GetPath (forest q)) ->
  forall n, In n (forest q) -> stopped_at n (while_loop q (start h)) ->
  forall d, In d (descendants n) ->
  ~ In (GetPath d) (visited (while_loop q (start h))).
Proof.
  induction q as [|c rest IHrest IHchildren] using queue_ind;
    intros h Hnd n Hn Hstop d Hd; [contradiction|].
  destruct (NoDup_queue _ _ Hnd) as (Hc1 & Hc2 & Hdisj & Hnd1 & Hnd2).
  assert (Hstopping : forall h',
    (GetPath c = GetPath n \/ stopped_at n (while_loop rest (start h'))) ->
    ~ (GetPath c = GetPath d \/
       In (GetPath d) (visited (while_loop rest (start h'))))).
  { intros h' Hs Hv.
    apply in_forest_cons in Hn as [->|[Hn|Hn]].
    - destruct Hv as [Hv|Hv].
      + apply Hc1. rewrite Hv. apply in_map. exact Hd.
      + apply visited_sound in Hv.
        exact (Hdisj _ (in_map GetPath _ _ Hd) Hv).
    - destruct Hs as [Hs|Hs].
      + apply Hc1. rewrite Hs. apply in_map. exact Hn.
      + apply stopped_at_visited, visited_sound in Hs.
        exact (Hdisj _ (in_map GetPath _ _ Hn) Hs).
    - pose proof (forest_closed _ _ _ Hn Hd) as Hd'.
      destruct Hv as [Hv|Hv].
      + apply Hc2. rewrite Hv. apply in_map. exact Hd'.
      + destruct Hs as [Hs|Hs].
        * apply Hc2. rewrite Hs. apply in_map. exact Hn.
        * exact (IHrest h' Hnd1 n Hn Hs d Hd Hv). }
  rewrite while_loop_start in Hstop |- *.
  destruct (IsInstance c).
  - rewrite stopped_at_instance in Hstop. rewrite in_visited_instance.
    apply Hstopping. exact Hstop.
  - destruct (func (GetPath c) h) as [[|] h'].
    + rewrite stopped_at_call in Hstop. rewrite in_visited_call.
      apply Hstopping. tauto.
    + rewrite stopped_at_call in Hstop. rewrite in_visited_call.
      destruct Hstop as [[_ Hf]|Hs]; [discriminate|].
      assert (Hc3 : ~ In (GetPath c)
                      (map GetPath (forest (rest ++ GetChildren c)))).
      { rewrite forest_app, map_app, <- descendants_forest, in_app_iff.
        tauto. }
      assert (Hn' : In n (forest (rest ++ GetChildren c))).
      { apply in_forest_cons in Hn as [->|Hn].
        - exfalso. apply Hc3.
          apply stopped_at_visited, visited_sound in Hs. exact Hs.
        - apply in_forest_enqueue. tauto. }
      pose proof (forest_closed _ _ _ Hn' Hd) as Hd'.
      intros [Hv|Hv].
      * apply Hc3. rewrite Hv. apply in_map. exact Hd'.
      * exact (IHchildren h' Hnd2 n Hn' Hs d Hd Hv).
Qed.

(** The prims whose path the walk from [prim] visited are prims of the
    subtree of [prim], when paths identify the prims of the stage. *)
Lemma visited_member (stage prim n : Prim) (h : Host) :
  NoDup (map GetPath (subtree stage)) ->
  In prim (subtree stage) -> In n (subtree stage) ->
  In (GetPath n) (visited (while_loop [prim] (start h))) ->
  In n (forest [prim]).
Proof.
  intros Hnd Hprim Hn Hv.
  apply visited_sound, in_map_iff in Hv as (n' & Hp & Hn').
  assert (Hin : In n' (subtree stage)).
  { unfold forest in Hn'. simpl in Hn'. rewrite app_nil_r in Hn'.
    destruct Hn' as [<-|Hn']; [exact Hprim|].
    destruct Hprim as [<-|Hprim]; [right; exact Hn'|].
    right. exact (descendants_trans _ _ _ Hprim Hn'). }
  rewrite <- (NoDup_map_injective GetPath _ Hnd n' n Hin Hn Hp). exact Hn'.
Qed.

Lemma forest_single_NoDup (stage prim : Prim) :
  NoDup (map GetPath (subtree stage)) -> In prim (subtree stage) ->
  NoDup (map GetPath (forest [prim])).
Proof.
  intros Hnd Hprim. unfold forest. simpl. rewrite app_nil_r.
  exact (subtree_NoDup _ Hnd _ Hprim).
Qed.

Lemma GetPrimAtPath_member (stage prim : Prim) (prim_path : string) :
  GetPrimAtPath stage prim_path = Some prim -> In prim (subtree stage).
Proof. intros H. apply find_some in H. tauto. Qed.

(** *** The properties of the wrapper *)

(** C1.  On a stage whose paths identify its prims, a call of the wrapper at
    a valid root path returns, and for every prim at which [func] returned
    true, no descendant of that prim is taken from the queue: none is
    recorded as instanced and none is passed to [func].  The success counter
    is the number of calls of [func] that returned true, so the prim is
    counted. *)
Theorem apply_nested_success_stops_descent
    (current_stage : Prim) (stage : option Prim) (prim_path : string)
    (h : Host) (prim : Prim) :
  NoDup (map GetPath (subtree (resolved_stage current_stage stage))) ->
  GetPrimAtPath (resolved_stage current_stage stage) prim_path = Some prim ->
  exists out,
    wrapper current_stage stage prim_path h = inr out /\
    count_success (walked out)
      = List.length (filter snd (calls (walked out))) /\
    forall n, In n (subtree (resolved_stage current_stage stage)) ->
      succeeded n (walked out) ->
      1 <= count_success (walked out) /\
      forall d, In d (descendants n) ->
        ~ In (GetPath d) (visited (walked out)) /\
        forall b, ~ In (GetPath d, b) (calls (walked out)).
Proof.
  intros Hnd Hfind. unfold wrapper.
  rewrite Hfind. eexists. split; [reflexivity|]. simpl walked.
  pose proof (GetPrimAtPath_member _ _ _ Hfind) as Hprim.
  split; [apply count_success_calls|].
  intros n Hn Hsucc. split.
  - rewrite count_success_calls.
    assert (Hf : In (GetPath n, true)
                    (filter snd (calls (while_loop [prim] (start h))))).
    { apply filter_In. split; [exact Hsucc | reflexivity]. }
    destruct (filter snd (calls (while_loop [prim] (start h))));
      [contradiction | simpl; lia].
  - intros d Hd.
    assert (Hstop : stopped_at n (while_loop [prim] (start h)))
      by (right; exact Hsucc).
    pose proof (visited_member _ _ _ h Hnd Hprim Hn (stopped_at_visited _ _ Hstop))
      as Hn'.
    pose proof (descendants_pruned _ h (forest_single_NoDup _ _ Hnd Hprim)
                  n Hn' Hstop d Hd) as Hpruned.
    split; [exact Hpruned|].
    intros b Hcall. apply Hpruned. unfold visited. apply in_or_app. right.
    apply (in_map fst) in Hcall. exact Hcall.
Qed.

(** C2.  On a stage whose paths identify its prims, a call of the wrapper at
    a valid root path returns, and no instance of the stage is passed to
    [func]; an instance that is taken from the queue has its path in
    [instanced_prim_paths], and none of its descendants is taken from the
    queue (its children are not added to it). *)
Theorem apply_nested_instances_skipped
    (current_stage : Prim) (stage : option Prim) (prim_path : string)
    (h : Host) (prim : Prim) :
  NoDup (map GetPath (subtree (resolved_stage current_stage stage))) ->
  GetPrimAtPath (resolved_stage current_stage stage) prim_path = Some prim ->
  exists out,
    wrapper current_stage stage prim_path h = inr out /\
    forall n, In n (subtree (resolved_stage current_stage stage)) ->
      IsInstance n = true ->
      (forall b, ~ In (GetPath n, b) (calls (walked out))) /\
      (In (GetPath n) (visited (walked out)) ->
       In (GetPath n) (instanced_prim_paths (walked out)) /\
       forall d, In d (descendants n) ->
         ~ In (GetPath d) (visited (walked out))).
Proof.
  intros Hnd Hfind. unfold wrapper.
  rewrite Hfind. eexists. split; [reflexivity|]. simpl walked.
  pose proof (GetPrimAtPath_member _ _ _ Hfind) as Hprim.
  intros n Hn Hinst.
  assert (Hnocall : forall b,
            ~ In (GetPath n, b) (calls (while_loop [prim] (start h)))).
  { intros b Hcall.
    assert (Hv : In (GetPath n) (visited (while_loop [prim] (start h)))).
    { unfold visited. apply in_or_app. right.
      apply (in_map fst) in Hcall. exact Hcall. }
    pose proof (visited_member _ _ _ h Hnd Hprim Hn Hv) as Hn'.
    destruct (calls_sound _ _ _ _ Hcall) as (n' & Hn'' & Hp & Hi).
    pose proof (NoDup_map_injective GetPath _
                  (forest_single_NoDup _ _ Hnd Hprim) n' n Hn'' Hn' Hp) as ->.
    congruence. }
  split; [exact Hnocall|].
  intros Hv.
  assert (Hrec : In (GetPath n)
                    (instanced_prim_paths (while_loop [prim] (start h)))).
  { unfold visited in Hv. apply in_app_or in Hv as [Hv|Hv]; [exact Hv|].
    apply in_map_iff in Hv as ((p', b) & Hp & Hcall). simpl in Hp. subst p'.
    destruct (Hnocall b Hcall). }
  split; [exact Hrec|].
  intros d Hd.
  exact (descendants_pruned _ h (forest_single_NoDup _ _ Hnd Hprim) n
           (visited_member _ _ _ h Hnd Hprim Hn Hv) (or_introl Hrec) d Hd).
Qed.

(** C6.  A call of the wrapper at a valid root path returns; when the walk
    ends with a success count of zero, exactly one warning is given to
    [carb.log_warn], whose text names the decorated function, the root path
    and, at its end, the list of instanced prim paths the walk recorded. *)
Theorem apply_nested_zero_success_warns
    (current_stage : Prim) (stage : option Prim) (prim_path : string)
    (h : Host) (prim : Prim) :
  GetPrimAtPath (resolved_stage current_stage stage) prim_path = Some prim ->
  exists out,
    wrapper current_stage stage prim_path h = inr out /\
    walked out = while_loop [prim] (start h) /\
    (count_success (walked out) = 0 ->
     log_warn out =
       [("Could not perform '" ++ func_name ++ "' on any prims under: '"
         ++ prim_path ++ "'." ++ warning_reasons
         ++ "Discovered list of instanced prim paths: "
         ++ repr_paths (instanced_prim_paths (walked out)))%string]) /\
    (count_success (walked out) <> 0 -> log_warn out = []).
Proof.
  intros Hfind. unfold wrapper.
  rewrite Hfind. eexists. split; [reflexivity|]. simpl walked. simpl log_warn.
  split; [reflexivity|].
  split; intros Hcount.
  - rewrite Hcount. reflexivity.
  - apply Nat.eqb_neq in Hcount. rewrite Hcount. reflexivity.
Qed.

End Wrapper.

(** *** A stage to run the wrapper on *)

(** A robot with two links next to an instanced table. *)
Definition example_stage : Prim :=
  mkPrim "/" false
    [mkPrim "/World" false
       [mkPrim "/World/Robot" false
          [mkPrim "/World/Robot/base" false [];
           mkPrim "/World/Robot/arm" false []];
        mkPrim "/World/Table" true
          [mkPrim "/World/Table/top" false []]]].

(** A function that succeeds at the robot only and counts its calls. *)
Definition example_func (prim_path : string) (n : nat) : bool * nat :=
  (String.eqb prim_path "/World/Robot", S n).

(** A function that succeeds nowhere. *)
Definition failing_func (prim_path : string) (n : nat) : bool * nat :=
  (false, S n).

(** A rendering of a list of paths, for the examples. *)
Definition example_repr (l : list string) : string :=
  ("[" ++ String.concat ", " l ++ "]")%string.

Example wrapper_example :
  wrapper example_func "f" example_repr example_stage None "/World" 0
  = inr {| walked := {| count_success := 1;
                        instanced_prim_paths := ["/World/Table"];
                        calls := [("/World", false); ("/World/Robot", true)];
                        host := 2 |};
           log_warn := [] |}.
Proof. reflexivity. Qed.

Example wrapper_example_invalid :
  wrapper example_func "f" example_repr example_stage None "/Bottle" 0
  = inl (ValueError "Prim at path '/Bottle' is not valid.").
Proof. reflexivity. Qed.

Example wrapper_example_failing :
  option_map (fun out => (calls (walked out), instanced_prim_paths (walked out)))
    (match wrapper failing_func "f" example_repr example_stage None "/World" 0
     with inr out => Some out | inl _ => None end)
  = Some ([("/World", false); ("/World/Robot", false);
           ("/World/Robot/base", false); ("/World/Robot/arm", false)],
          ["/World/Table"]).
Proof. reflexivity. Qed.

Lemma example_stage_NoDup : NoDup (map GetPath (subtree example_stage)).
Proof.
  simpl. repeat (constructor; [simpl; intuition discriminate|]). constructor.
Defined.

Lemma apply_nested_success_stops_descent_witness :
  exists out,
    wrapper example_func "f" example_repr example_stage None "/World" 0
      = inr out /\
    count_success (walked out)
      = List.length (filter snd (calls (walked out))) /\
    forall n, In n (subtree example_stage) ->
      succeeded n (walked out) ->
      1 <= count_success (walked out) /\
      forall d, In d (descendants n) ->
        ~ In (GetPath d) (visited (walked out)) /\
        forall b, ~ In (GetPath d, b) (calls (walked out)).
Proof.
  destruct (GetPrimAtPath example_stage "/World") as [prim|] eqn:Hfind;
    [|discriminate].
  apply (apply_nested_success_stops_descent example_func "f" example_repr
           example_stage None "/World" 0 prim).
  - exact example_stage_NoDup.
  - exact Hfind.
Defined.

Lemma apply_nested_instances_skipped_witness :
  exists out,
    wrapper example_func "f" example_repr example_stage None "/World" 0
      = inr out /\
    forall n, In n (subtree example_stage) ->
      IsInstance n = true ->
      (forall b, ~ In (GetPath n, b) (calls (walked out))) /\
      (In (GetPath n) (visited (walked out)) ->
       In (GetPath n) (instanced_prim_paths (walked out)) /\
       forall d, In d (descendants n) ->
         ~ In (GetPath d) (visited (walked out))).
Proof.
  destruct (GetPrimAtPath example_stage "/World") as [prim|] eqn:Hfind;
    [|discriminate].
  apply (apply_nested_instances_skipped example_func "f" example_repr
           example_stage None "/World" 0 prim).
  - exact example_stage_NoDup.
  - exact Hfind.
Defined.

Lemma apply_nested_zero_success_warns_witness :
  exists out,
    wrapper failing_func "f" example_repr example_stage None "/World" 0
      = inr out /\
    count_success (walked out) = 0 /\
    log_warn out =
      [("Could not perform 'f' on any prims under: '/World'."
        ++ warning_reasons
        ++ "Discovered list of instanced prim paths: [/World/Table]")%string].
Proof.
  destruct (GetPrimAtPath example_stage "/World") as [prim|] eqn:Hfind;
    [|discriminate].
  destruct (apply_nested_zero_success_warns failing_func "f" example_repr
              example_stage None "/World" 0 prim Hfind)
    as (out & Hout & Hwalk & Hzero & _).
  injection Hfind as <-.
  exists out. split; [exact Hout|].
  assert (Hcount : count_success (walked out) = 0)
    by (rewrite Hwalk; reflexivity).
  split; [exact Hcount|].
  rewrite (Hzero Hcount), Hwalk. reflexivity.
Defined.

End ApplyNested.

(** ** [clone] *)

Module Clone.

(** The fields of the spawner configuration the wrapper reads.  The three
    fields it guards with [hasattr] are optional ([None]: the attribute is
    absent); [semantic_tags] can be present and [None]; [copy_from_source] is
    read without a guard and is a field of every [SpawnerCfg]. *)
Record SpawnerCfg : Type := mkSpawnerCfg {
  visible : option bool;
  semantic_tags : option (option (list (string * string)));
  activate_contact_sensors : option PyVal;
  copy_from_source : bool
}.

(** [1.], the threshold given to [schemas.activate_contact_sensors]. *)
Definition one_float : PyVal := PyFloat 4607182418800017408%Z.

(** The name of the semantics instance of a pair (lines 250-253): both
    components with their spaces replaced, joined by an underscore. *)
Definition instance_name (semantic_type semantic_value : string) : string :=
  let semantic_type_sanitized := PyStr.replace_space semantic_type in
  let semantic_value_sanitized := PyStr.replace_space semantic_value in
  (semantic_type_sanitized ++ "_" ++ semantic_value_sanitized)%string.

(** [re.match(r"^[a-zA-Z0-9/_]+$", root_path) is None]. *)
Definition is_regex_expression (root_path : string) : bool :=
  negb (PyStr.re_match_prim_path root_path).

Section Wrapper.

(** The state of the host, and the handle of a spawned prim. *)
Context {Host Handle : Type}.

(** The calls the wrapper makes that act on the host. *)
Inductive Event : Type :=
| Spawn (prim_path : string) (cfg : SpawnerCfg)
| SetPrimVisibility (prim : Handle) (visible : bool)
| SemanticsApply (prim : Handle) (instance_name : string)
| CreateSemanticTypeAttr (prim : Handle) (instance_name : string)
| CreateSemanticDataAttr (prim : Handle) (instance_name : string)
| SetSemanticType (prim : Handle) (instance_name : string) (value : string)
| SetSemanticData (prim : Handle) (instance_name : string) (value : string)
| ActivateContactSensors (prim_path : string) (threshold : PyVal)
| ClonerClone (source : string) (targets : list string)
    (replicate_physics : bool) (copy_from_source : option bool).

(** The decorated spawn function, with its [*args] and [**kwargs] fixed. *)
Variable func : string -> SpawnerCfg -> Host -> Handle * Host.

(** [prim_utils.find_matching_prim_paths], which reads the stage. *)
Variable find_matching_prim_paths : string -> Host -> list string.

(** What each of the other calls does to the host. *)
Variable host_step : Event -> Host -> Host.

(** [int(get_version()[2])]. *)
Variable isaac_major_version : Z.

Record World : Type := mkWorld {
  host : Host;
  trace : list Event
}.

(** A call into the host: it acts on the host and is recorded. *)
Definition call (e : Event) : M World unit :=
  fun w => ({| host := host_step e (host w); trace := trace w ++ [e] |}, inr tt).

(** The call of the decorated function. *)
Definition spawn (prim_path : string) (cfg : SpawnerCfg) : M World Handle :=
  fun w =>
    let (prim, host') := func prim_path cfg (host w) in
    ({| host := host'; trace := trace w ++ [Spawn prim_path cfg] |}, inr prim).

(** A query of the stage. *)
Definition find_matching (pattern : string) : M World (list string) :=
  fun w => (w, inr (find_matching_prim_paths pattern (host w))).

(** [prim_paths[0]]. *)
Definition first_of (prim_paths : list string) : M World string :=
  match prim_paths with
  | [] => raise (IndexError "list index out of range")
  | first :: _ => ret first
  end.

(** Lines 222-239: from the prim path to the paths to spawn and clone at. *)
Definition resolve (prim_path : string) : M World (list string) :=
  match PyStr.rsplit_slash prim_path with
  | None => raise (ValueError "not enough values to unpack (expected 2, got 1)")
  | Some (root_path, asset_path) =>
      source_prim_paths <-
        (if is_regex_expression root_path && negb (String.eqb root_path "")
         then
           source_prim_paths <- find_matching root_path ;;
           if List.length source_prim_paths =? 0
           then raise (RuntimeError
                  ("Unable to find source prim path: '" ++ root_path
                   ++ "'. Please create the prim before spawning.")%string)
           else ret source_prim_paths
         else ret [root_path]) ;;
      ret (map (fun source_prim_path =>
                  (source_prim_path ++ "/" ++ asset_path)%string)
               source_prim_paths)
  end.

(** Lines 243-244. *)
Definition set_visibility (prim : Handle) (cfg : SpawnerCfg) : M World unit :=
  match visible cfg with
  | Some v => call (SetPrimVisibility prim v)
  | None => ret tt
  end.

(** Lines 246-259. *)
Definition set_semantics (prim : Handle) (cfg : SpawnerCfg) : M World unit :=
  match semantic_tags cfg with
  | Some (Some tags) =>
      for_each tags (fun '(semantic_type, semantic_value) =>
        let name := instance_name semantic_type semantic_value in
        call (SemanticsApply prim name) ;;;
        call (CreateSemanticTypeAttr prim name) ;;;
        call (CreateSemanticDataAttr prim name) ;;;
        call (SetSemanticType prim name semantic_type) ;;;
        call (SetSemanticData prim name semantic_value))
  | _ => ret tt
  end.

(** Lines 261-270. *)
Definition activate_sensors (prim_paths : list string) (cfg : SpawnerCfg)
    : M World unit :=
  match activate_contact_sensors cfg with
  | Some selector =>
      activate_paths <-
        match selector with
        | PyStr pattern =>
            first <- first_of prim_paths ;;
            find_matching (first ++ "/" ++ pattern)%string
        | PyBool b =>
            if b then (first <- first_of prim_paths ;; ret [first]) else ret []
        | _ => raise (ValueError "")
        end ;;
      for_each activate_paths (fun activate_path =>
        call (ActivateContactSensors activate_path one_float))
  | None => ret tt
  end.

(** Lines 272-281. *)
Definition clone_asset (prim_paths : list string) (cfg : SpawnerCfg)
    : M World unit :=
  if 1 <? List.length prim_paths
  then
    first <- first_of prim_paths ;;
    if (isaac_major_version <=? 2022)%Z
    then call (ClonerClone first (tl prim_paths) false None)
    else call (ClonerClone first (tl prim_paths) false
                 (Some (copy_from_source cfg)))
  else ret tt.

(** The wrapper. *)
Definition wrapper (prim_path : string) (cfg : SpawnerCfg) : M World Handle :=
  prim_paths <- resolve prim_path ;;
  first <- first_of prim_paths ;;
  prim <- spawn first cfg ;;
  set_visibility prim cfg ;;;
  set_semantics prim cfg ;;;
  activate_sensors prim_paths cfg ;;;
  clone_asset prim_paths cfg ;;;
  ret prim.

(** A call of the wrapper on a host on which nothing has been recorded. *)
Definition run (prim_path : string) (cfg : SpawnerCfg) (h : Host)
    : World * (Exc + Handle) :=
  wrapper prim_path cfg {| host := h; trace := [] |}.

(** The paths the wrapper resolves on a host, or the exception the
    resolution raises. *)
Definition candidates (prim_path : string) (h : Host) : Exc + list string :=
  snd (resolve prim_path {| host := h; trace := [] |}).

(** *** The calls each part of the wrapper makes *)

(** The world after a list of calls. *)
Definition apply_events (evs : list Event) (w : World) : World :=
  {| host := fold_left (fun h e => host_step e h) evs (host w);
     trace := trace w ++ evs |}.

Definition visibility_events (prim : Handle) (cfg : SpawnerCfg) : list Event :=
  match visible cfg with
  | Some v => [SetPrimVisibility prim v]
  | None => []
  end.

Definition tag_events (prim : Handle) (tag : string * string) : list Event :=
  let name := instance_name (fst tag) (snd tag) in
  [SemanticsApply prim name;
   CreateSemanticTypeAttr prim name;
   CreateSemanticDataAttr prim name;
   SetSemanticType prim name (fst tag);
   SetSemanticData prim name (snd tag)].

Definition semantics_events (prim : Handle) (cfg : SpawnerCfg) : list Event :=
  match semantic_tags cfg with
  | Some (Some tags) => flat_map (tag_events prim) tags
  | _ => []
  end.

(** The paths at which contact sensors are activated, read on the host [h],
    when the selector is of a supported type. *)
Definition activation_paths (first : string) (cfg : SpawnerCfg) (h : Host)
    : option (list string) :=
  match activate_contact_sensors cfg with
  | None => Some []
  | Some (PyStr pattern) =>
      Some (find_matching_prim_paths (first ++ "/" ++ pattern)%string h)
  | Some (PyBool b) => Some (if b then [first] else [])
  | Some _ => None
  end.

Definition activation_events (paths : list string) : list Event :=
  map (fun activate_path => ActivateContactSensors activate_path one_float)
      paths.

Definition clone_events (first : string) (others : list string)
    (cfg : SpawnerCfg) : list Event :=
  match others with
  | [] => []
  | _ :: _ =>
      [ClonerClone first others false
         (if (isaac_major_version <=? 2022)%Z then None
          else Some (copy_from_source cfg))]
  end.

Lemma apply_events_nil (w : World) : apply_events [] w = w.
Proof. destruct w; unfold apply_events; simpl. rewrite app_nil_r. reflexivity. Qed.

Lemma apply_events_app (e1 e2 : list Event) (w : World) :
  apply_events e2 (apply_events e1 w) = apply_events (e1 ++ e2) w.
Proof.
  unfold apply_events; simpl. rewrite fold_left_app, app_assoc. reflexivity.
Qed.

Lemma bind_events {A : Type} (evs : list Event) (m : M World unit)
    (k : M World A) (w : World) :
  m w = (apply_events evs w, inr tt) ->
  (m ;;; k) w = k (apply_events evs w).
Proof. intros H. unfold bind. rewrite H. reflexivity. Qed.

Lemma for_each_events {A : Type} (body : A -> M World unit)
    (events_of : A -> list Event) :
  (forall x w, body x w = (apply_events (events_of x) w, inr tt)) ->
  forall l w, for_each l body w = (apply_events (flat_map events_of l) w, inr tt).
Proof.
  intros Hbody l. induction l as [|x l IH]; intros w; simpl.
  - unfold ret. rewrite apply_events_nil. reflexivity.
  - rewrite (bind_events (events_of x)) by apply Hbody.
    rewrite IH, apply_events_app. reflexivity.
Qed.

Lemma set_visibility_events (prim : Handle) (cfg : SpawnerCfg) (w : World) :
  set_visibility prim cfg w = (apply_events (visibility_events prim cfg) w, inr tt).
Proof.
  unfold set_visibility, visibility_events.
  destruct (visible cfg); [reflexivity|].
  unfold ret. rewrite apply_events_nil. reflexivity.
Qed.

Lemma set_semantics_events (prim : Handle) (cfg : SpawnerCfg) (w : World) :
  set_semantics prim cfg w = (apply_events (semantics_events prim cfg) w, inr tt).
Proof.
  unfold set_semantics, semantics_events.
  destruct (semantic_tags cfg) as [[tags|]|];
    try (unfold ret; rewrite apply_events_nil; reflexivity).
  apply for_each_events. intros [semantic_type semantic_value] w'.
  unfold tag_events, bind, call, apply_events; simpl.
  rewrite <- !app_assoc. reflexivity.
Qed.

Lemma activate_sensors_events (first : string) (others : list string)
    (cfg : SpawnerCfg) (w : World) :
  activate_sensors (first :: others) cfg w =
  match activation_paths first cfg (host w) with
  | Some paths => (apply_events (activation_events paths) w, inr tt)
  | None => (w, inl (ValueError ""))
  end.
Proof.
  unfold activate_sensors, activation_paths.
  destruct (activate_contact_sensors cfg) as [selector|];
    [|unfold ret; rewrite apply_events_nil; reflexivity].
  assert (Hloop : forall paths w',
    for_each paths (fun activate_path =>
      call (ActivateContactSensors activate_path one_float)) w'
    = (apply_events (activation_events paths) w', inr tt)).
  { intros paths. induction paths as [|p paths IH]; intros w'; simpl.
    - unfold ret. rewrite apply_events_nil. reflexivity.
    - rewrite (bind_events [ActivateContactSensors p one_float])
        by reflexivity.
      rewrite IH, apply_events_app. reflexivity. }
  destruct selector as [|b|z|bits|pattern|items|items];
    try reflexivity.
  - destruct b; unfold bind at 1; simpl.
    + apply (Hloop [first]).
    + apply (Hloop []).
  - unfold bind at 1; simpl. apply Hloop.
Qed.

Lemma clone_asset_events (first : string) (others : list string)
    (cfg : SpawnerCfg) (w : World) :
  clone_asset (first :: others) cfg w =
  (apply_events (clone_events first others cfg) w, inr tt).
Proof.
  unfold clone_asset, clone_events.
  destruct others as [|second others]; simpl.
  - unfold ret. rewrite apply_events_nil. reflexivity.
  - unfold bind; simpl.
    destruct (isaac_major_version <=? 2022)%Z; reflexivity.
Qed.

(** The resolution reads the host and leaves the world as it is. *)
Lemma resolve_candidates (prim_path : string) (w : World) :
  resolve prim_path w = (w, candidates prim_path (host w)).
Proof.
  unfold candidates, resolve.
  destruct (PyStr.rsplit_slash prim_path) as [[root_path asset_path]|];
    [|reflexivity].
  destruct (is_regex_expression root_path && negb (String.eqb root_path ""));
    [|reflexivity].
  unfold bind, find_matching; simpl.
  destruct (List.length (find_matching_prim_paths root_path (host w)) =? 0);
    reflexivity.
Qed.

(** A resolution that succeeds gives at least one path. *)
Lemma candidates_nonempty (prim_path : string) (h : Host)
    (prim_paths : list string) :
  candidates prim_path h = inr prim_paths ->
  exists first others, prim_paths = first :: others.
Proof.
  unfold candidates, resolve.
  destruct (PyStr.rsplit_slash prim_path) as [[root_path asset_path]|];
    [|discriminate].
  destruct (is_regex_expression root_path && negb (String.eqb root_path "")).
  - unfold bind, find_matching; simpl.
    destruct (find_matching_prim_paths root_path h) as [|p l]; simpl;
      [discriminate|].
    intros H. injection H as <-. eauto.
  - unfold bind; simpl. intros H. injection H as <-. eauto.
Qed.

(** The world after the spawn and the configuration that precedes the
    activation of contact sensors. *)
Definition configured (first : string) (cfg : SpawnerCfg) (h : Host) : World :=
  let (prim, host') := func first cfg h in
  apply_events (visibility_events prim cfg ++ semantics_events prim cfg)
    {| host := host'; trace := [Spawn first cfg] |}.

(** A call of the wrapper whose prim path resolves, as the calls it makes. *)
Lemma run_events (prim_path : string) (cfg : SpawnerCfg) (h : Host)
    (first : string) (others : list string) :
  candidates prim_path h = inr (first :: others) ->
  run prim_path cfg h =
  match activation_paths first cfg (host (configured first cfg h)) with
  | Some paths =>
      (apply_events (activation_events paths ++ clone_events first others cfg)
         (configured first cfg h),
       inr (fst (func first cfg h)))
  | None => (configured first cfg h, inl (ValueError ""))
  end.
Proof.
  intros Hres. unfold run, wrapper, configured.
  unfold bind at 1. rewrite resolve_candidates. simpl host. rewrite Hres.
  unfold bind at 1. simpl first_of. unfold ret at 1.
  unfold bind at 1. unfold spawn at 1. simpl host.
  destruct (func first cfg h) as [prim h1]. simpl trace. simpl fst.
  rewrite (bind_events (visibility_events prim cfg))
    by apply set_visibility_events.
  rewrite (bind_events (semantics_events prim cfg))
    by apply set_semantics_events.
  rewrite apply_events_app.
  unfold bind at 1. rewrite activate_sensors_events.
  destruct (activation_paths first cfg _) as [paths|]; [|reflexivity].
  rewrite (bind_events (clone_events first others cfg))
    by apply clone_asset_events.
  rewrite apply_events_app. reflexivity.
Qed.

(** A call of the wrapper whose prim path does not resolve makes no call. *)
Lemma run_unresolved (prim_path : string) (cfg : SpawnerCfg) (h : Host)
    (e : Exc) :
  candidates prim_path h = inl e ->
  run prim_path cfg h = ({| host := h; trace := [] |}, inl e).
Proof.
  intros Hres. unfold run, wrapper.
  unfold bind at 1. rewrite resolve_candidates. simpl host. rewrite Hres.
  reflexivity.
Qed.

(** *** Counting the calls *)

Definition is_spawn (e : Event) : bool :=
  match e with Spawn _ _ => true | _ => false end.

Definition is_clone (e : Event) : bool :=
  match e with ClonerClone _ _ _ _ => true | _ => false end.

(** The calls that configure the spawned prim. *)
Definition is_configuration (e : Event) : bool :=
  negb (is_spawn e) && negb (is_clone e).

Lemma configuration_events (prim : Handle) (cfg : SpawnerCfg) :
  forallb is_configuration
    (visibility_events prim cfg ++ semantics_events prim cfg) = true.
Proof.
  rewrite forallb_app. apply andb_true_intro. split.
  - unfold visibility_events. destruct (visible cfg); reflexivity.
  - unfold semantics_events.
    destruct (semantic_tags cfg) as [[tags|]|]; try reflexivity.
    induction tags as [|tag tags IH]; [reflexivity|]. simpl. exact IH.
Qed.

Lemma activation_events_configuration (paths : list string) :
  forallb is_configuration (activation_events paths) = true.
Proof. induction paths as [|p paths IH]; [reflexivity | exact IH]. Qed.

Lemma filter_configuration (f : Event -> bool) (evs : list Event) :
  (forall e, is_configuration e = true -> f e = false) ->
  forallb is_configuration evs = true -> filter f evs = [].
Proof.
  intros Hf. induction evs as [|e evs IH]; simpl; [reflexivity|].
  intros H. apply andb_prop in H as [He Hevs].
  rewrite (Hf e He). exact (IH Hevs).
Qed.

Lemma configuration_not_spawn (e : Event) :
  is_configuration e = true -> is_spawn e = false.
Proof. unfold is_configuration. destruct e; simpl; intros H; congruence. Qed.

Lemma configuration_not_clone (e : Event) :
  is_configuration e = true -> is_clone e = false.
Proof. unfold is_configuration. destruct e; simpl; intros H; congruence. Qed.

Lemma configured_trace (first : string) (cfg : SpawnerCfg) (h : Host) :
  trace (configured first cfg h) =
  Spawn first cfg ::
    visibility_events (fst (func first cfg h)) cfg
    ++ semantics_events (fst (func first cfg h)) cfg.
Proof.
  unfold configured. destruct (func first cfg h) as [prim h1]. reflexivity.
Qed.

Lemma configured_spawns (first : string) (cfg : SpawnerCfg) (h : Host) :
  filter is_spawn (trace (configured first cfg h)) = [Spawn first cfg].
Proof.
  rewrite configured_trace. simpl. f_equal.
  apply (filter_configuration _ _ configuration_not_spawn).
  apply configuration_events.
Qed.

Lemma configured_clones (first : string) (cfg : SpawnerCfg) (h : Host) :
  filter is_clone (trace (configured first cfg h)) = [].
Proof.
  rewrite configured_trace. simpl.
  apply (filter_configuration _ _ configuration_not_clone).
  apply configuration_events.
Qed.

Lemma clone_events_spawns (first : string) (others : list string)
    (cfg : SpawnerCfg) :
  filter is_spawn (clone_events first others cfg) = [].
Proof. destruct others; reflexivity. Qed.

Lemma clone_events_clones (first : string) (others : list string)
    (cfg : SpawnerCfg) :
  filter is_clone (clone_events first others cfg) = clone_events first others cfg.
Proof. destruct others; reflexivity. Qed.

Lemma trace_apply_events (evs : list Event) (w : World) :
  trace (apply_events evs w) = trace w ++ evs.
Proof. reflexivity. Qed.

Lemma configuration_member (e : Event) (evs : list Event) :
  forallb is_configuration evs = true -> In e evs -> is_clone e = false.
Proof.
  intros Hall Hin. apply configuration_not_clone.
  rewrite forallb_forall in Hall. exact (Hall e Hin).
Qed.

(** *** The properties of the wrapper *)

(** [isinstance(v, str) or isinstance(v, bool)]. *)
Definition is_str_or_bool (v : PyVal) : bool :=
  match v with
  | PyStr _ | PyBool _ => true
  | _ => false
  end.

(** The configuration has no contact-sensor selector, or one that is a
    string or a boolean. *)
Definition supported_selector (cfg : SpawnerCfg) : bool :=
  match activate_contact_sensors cfg with
  | None => true
  | Some selector => is_str_or_bool selector
  end.

Lemma activation_paths_supported (first : string) (cfg : SpawnerCfg) (h : Host) :
  supported_selector cfg = true ->
  exists paths, activation_paths first cfg h = Some paths.
Proof.
  unfold supported_selector, activation_paths.
  destruct (activate_contact_sensors cfg) as [[]|]; simpl;
    intros H; try discriminate; eauto.
Qed.

Lemma activation_paths_unsupported (first : string) (cfg : SpawnerCfg) (h : Host) :
  supported_selector cfg = false -> activation_paths first cfg h = None.
Proof.
  unfold supported_selector, activation_paths.
  destruct (activate_contact_sensors cfg) as [[]|]; simpl;
    intros H; try discriminate; reflexivity.
Qed.

(** C3, as the code has it.  When the prim path resolves to the paths
    [first :: others], the decorated function is called exactly once, at
    [first].  When the contact-sensor selector is absent, a string or a
    boolean, the call returns the prim spawned at [first], and the cloner is
    called exactly once, from [first] to [others], when there is more than
    one path, and is not called when there is one.  When the selector has
    another type, the call raises [ValueError] after the spawn and the
    cloner is not called. *)
Theorem clone_spawns_once_then_clones
    (prim_path : string) (cfg : SpawnerCfg) (h : Host)
    (prim_paths : list string) :
  candidates prim_path h = inr prim_paths ->
  exists first others,
    prim_paths = first :: others /\
    filter is_spawn (trace (fst (run prim_path cfg h))) = [Spawn first cfg] /\
    (supported_selector cfg = true ->
     snd (run prim_path cfg h) = inr (fst (func first cfg h)) /\
     filter is_clone (trace (fst (run prim_path cfg h))) =
       if 1 <? List.length prim_paths
       then [ClonerClone first others false
               (if (isaac_major_version <=? 2022)%Z then None
                else Some (copy_from_source cfg))]
       else []) /\
    (supported_selector cfg = false ->
     snd (run prim_path cfg h) = inl (ValueError "") /\
     filter is_clone (trace (fst (run prim_path cfg h))) = []).
Proof.
  intros Hres.
  destruct (candidates_nonempty _ _ _ Hres) as (first & others & ->).
  exists first, others. split; [reflexivity|].
  rewrite (run_events _ cfg _ _ _ Hres).
  split; [|split].
  - destruct (activation_paths first cfg _) as [paths|]; simpl fst.
    + rewrite trace_apply_events, !filter_app, configured_spawns.
      rewrite (filter_configuration _ _ configuration_not_spawn
                 (activation_events_configuration paths)).
      rewrite clone_events_spawns. reflexivity.
    + apply configured_spawns.
  - intros Hsup.
    destruct (activation_paths_supported first cfg
                (host (configured first cfg h)) Hsup) as (paths & ->).
    split; [reflexivity|]. simpl fst.
    rewrite trace_apply_events, !filter_app, configured_clones.
    rewrite (filter_configuration _ _ configuration_not_clone
               (activation_events_configuration paths)).
    rewrite clone_events_clones. simpl.
    destruct others; reflexivity.
  - intros Hunsup.
    rewrite (activation_paths_unsupported first cfg _ Hunsup).
    split; [reflexivity|]. apply configured_clones.
Qed.

(** C4.  When the part of the prim path before its last slash is taken as a
    regular expression and no prim path of the stage matches it, the call
    raises the [RuntimeError] of line 232, and it makes no call before that:
    the decorated function is not called and the host is as it was. *)
Theorem clone_unresolved_pattern_raises
    (prim_path : string) (cfg : SpawnerCfg) (h : Host)
    (root_path asset_path : string) :
  PyStr.rsplit_slash prim_path = Some (root_path, asset_path) ->
  is_regex_expression root_path = true ->
  root_path <> EmptyString ->
  find_matching_prim_paths root_path h = [] ->
  run prim_path cfg h =
  ({| host := h; trace := [] |},
   inl (RuntimeError ("Unable to find source prim path: '" ++ root_path
                      ++ "'. Please create the prim before spawning.")%string)).
Proof.
  intros Hsplit Hregex Hroot Hfind.
  apply run_unresolved. unfold candidates, resolve.
  rewrite Hsplit, Hregex.
  apply String.eqb_neq in Hroot. rewrite Hroot. simpl.
  unfold bind, find_matching; simpl. rewrite Hfind. reflexivity.
Qed.

(** C8.  Every call of the cloner that the wrapper makes has
    [replicate_physics=False]; up to version 2022 it has no
    [copy_from_source] argument, and from then on it has the one of the
    configuration. *)
Theorem clone_never_replicates_physics
    (prim_path : string) (cfg : SpawnerCfg) (h : Host)
    (source : string) (targets : list string) (replicate_physics : bool)
    (copy : option bool) :
  In (ClonerClone source targets replicate_physics copy)
     (trace (fst (run prim_path cfg h))) ->
  replicate_physics = false /\
  copy = (if (isaac_major_version <=? 2022)%Z then None
          else Some (copy_from_source cfg)).
Proof.
  destruct (candidates prim_path h) as [e|prim_paths] eqn:Hres.
  - rewrite (run_unresolved _ cfg _ _ Hres). simpl. contradiction.
  - destruct (candidates_nonempty _ _ _ Hres) as (first & others & ->).
    rewrite (run_events _ cfg _ _ _ Hres).
    assert (Hconfigured : ~ In (ClonerClone source targets replicate_physics copy)
                            (trace (configured first cfg h))).
    { rewrite configured_trace. intros [Hin|Hin]; [discriminate|].
      pose proof (configuration_member _ _ (configuration_events _ cfg) Hin).
      discriminate. }
    destruct (activation_paths first cfg _) as [paths|]; simpl fst;
      [|intros Hin; destruct (Hconfigured Hin)].
    rewrite trace_apply_events, !in_app_iff.
    intros [Hin|[Hin|Hin]].
    + destruct (Hconfigured Hin).
    + pose proof (configuration_member _ _
                    (activation_events_configuration paths) Hin).
      discriminate.
    + unfold clone_events in Hin. destruct others; [contradiction|].
      destruct Hin as [Hin|[]]. injection Hin as _ _ <- <-. auto.
Qed.

(** C9, as the code has it.  A call whose configuration carries a
    contact-sensor selector that is neither a string nor a boolean raises:
    the exception of the resolution of the prim path when that fails, with
    no call made, and [ValueError] when the prim path resolves. *)
Theorem clone_unsupported_selector_raises
    (prim_path : string) (cfg : SpawnerCfg) (h : Host) (selector : PyVal) :
  activate_contact_sensors cfg = Some selector ->
  is_str_or_bool selector = false ->
  (exists e, snd (run prim_path cfg h) = inl e) /\
  (forall prim_paths, candidates prim_path h = inr prim_paths ->
     snd (run prim_path cfg h) = inl (ValueError "")) /\
  (forall e, candidates prim_path h = inl e ->
     run prim_path cfg h = ({| host := h; trace := [] |}, inl e)).
Proof.
  intros Hsel Htype.
  assert (Hunsup : supported_selector cfg = false)
    by (unfold supported_selector; rewrite Hsel; exact Htype).
  assert (Hresolved : forall prim_paths,
            candidates prim_path h = inr prim_paths ->
            snd (run prim_path cfg h) = inl (ValueError "")).
  { intros prim_paths Hres.
    destruct (candidates_nonempty _ _ _ Hres) as (first & others & ->).
    rewrite (run_events _ cfg _ _ _ Hres).
    rewrite (activation_paths_unsupported first cfg _ Hunsup). reflexivity. }
  split; [|split; [exact Hresolved | intros e; apply run_unresolved]].
  destruct (candidates prim_path h) as [e|prim_paths] eqn:Hres.
  - exists e. rewrite (run_unresolved _ cfg _ _ Hres). reflexivity.
  - exists (ValueError ""). exact (Hresolved _ eq_refl).
Qed.

Lemma tag_events_member (prim : Handle) (tags : list (string * string))
    (semantic_type semantic_value : string) (e : Event) :
  In (semantic_type, semantic_value) tags ->
  In e (tag_events prim (semantic_type, semantic_value)) ->
  In e (flat_map (tag_events prim) tags).
Proof.
  intros Htag He. apply in_flat_map.
  exists (semantic_type, semantic_value). split; assumption.
Qed.

(** The trace of a call whose prim path resolves starts with the trace of
    the spawn and the configuration. *)
Lemma run_trace_configured (prim_path : string) (cfg : SpawnerCfg) (h : Host)
    (first : string) (others : list string) (e : Event) :
  candidates prim_path h = inr (first :: others) ->
  In e (trace (configured first cfg h)) ->
  In e (trace (fst (run prim_path cfg h))).
Proof.
  intros Hres Hin. rewrite (run_events _ cfg _ _ _ Hres).
  destruct (activation_paths first cfg _) as [paths|]; simpl fst;
    [|exact Hin].
  rewrite trace_apply_events. apply in_or_app. left. exact Hin.
Qed.

(** C7.  For every pair of the semantic tags of the configuration, the
    semantics API is applied to the spawned prim under the instance name made
    of the two components, each with its spaces replaced by underscores,
    joined by an underscore; the two attributes of that instance are set to
    the components as given.  The pair "object type", "soda can" gets the
    instance name "object_type_soda_can". *)
Theorem clone_semantic_tags_sanitized :
  (forall (prim_path : string) (cfg : SpawnerCfg) (h : Host)
          (first : string) (others : list string)
          (tags : list (string * string))
          (semantic_type semantic_value : string),
     candidates prim_path h = inr (first :: others) ->
     semantic_tags cfg = Some (Some tags) ->
     In (semantic_type, semantic_value) tags ->
     let prim := fst (func first cfg h) in
     let name := (PyStr.replace_space semantic_type ++ "_"
                  ++ PyStr.replace_space semantic_value)%string in
     let calls := trace (fst (run prim_path cfg h)) in
     In (SemanticsApply prim name) calls /\
     In (SetSemanticType prim name semantic_type) calls /\
     In (SetSemanticData prim name semantic_value) calls /\
     PyStr.has_char " "%char (PyStr.replace_space semantic_type) = false /\
     PyStr.has_char " "%char (PyStr.replace_space semantic_value) = false) /\
  instance_name "object type" "soda can" = "object_type_soda_can".
Proof.
  split; [|reflexivity].
  intros prim_path cfg h first others tags semantic_type semantic_value
    Hres Htags Htag prim name calls.
  assert (Hin : forall e,
            In e (tag_events prim (semantic_type, semantic_value)) ->
            In e calls).
  { intros e He. apply (run_trace_configured _ cfg _ _ _ e Hres).
    rewrite configured_trace. right. apply in_or_app. right.
    unfold semantics_events. rewrite Htags.
    exact (tag_events_member _ _ _ _ _ Htag He). }
  repeat split;
    try apply PyStrFacts.replace_space_no_space;
    apply Hin; unfold tag_events, instance_name; simpl; auto 6.
Qed.

(** The paths a prim path resolves to, by the kind of its parent part. *)
Lemma candidates_literal (prim_path root_path asset_path : string) (h : Host) :
  PyStr.rsplit_slash prim_path = Some (root_path, asset_path) ->
  is_regex_expression root_path && negb (String.eqb root_path "") = false ->
  candidates prim_path h = inr [(root_path ++ "/" ++ asset_path)%string].
Proof.
  intros Hsplit Hlit. unfold candidates, resolve. rewrite Hsplit, Hlit.
  reflexivity.
Qed.

Lemma candidates_pattern (prim_path root_path asset_path : string) (h : Host) :
  PyStr.rsplit_slash prim_path = Some (root_path, asset_path) ->
  is_regex_expression root_path && negb (String.eqb root_path "") = true ->
  find_matching_prim_paths root_path h <> [] ->
  candidates prim_path h =
  inr (map (fun source_prim_path =>
              (source_prim_path ++ "/" ++ asset_path)%string)
           (find_matching_prim_paths root_path h)).
Proof.
  intros Hsplit Hpat Hfound. unfold candidates, resolve.
  rewrite Hsplit, Hpat. unfold bind, find_matching; simpl.
  destruct (find_matching_prim_paths root_path h); [congruence | reflexivity].
Qed.

(** Where the code follows C5: a parent part that has a character outside
    the class and does not end with a newline is resolved on the stage; a
    parent part that is empty or all in the class is used as it is. *)
Lemma parent_classification (root_path : string) :
  (PyStr.has_char_outside_class root_path = true ->
   PyStr.ends_with_newline root_path = false ->
   is_regex_expression root_path && negb (String.eqb root_path "") = true) /\
  (PyStr.has_char_outside_class root_path = false ->
   is_regex_expression root_path && negb (String.eqb root_path "") = false).
Proof.
  unfold PyStr.has_char_outside_class, is_regex_expression. split.
  - intros Hout Hend.
    destruct (PyStr.re_match_prim_path root_path) eqn:Hm.
    + destruct (PyStrFacts.re_match_outside_class _ Hm) as [H|H];
        [rewrite H in Hout | rewrite H in Hend]; discriminate.
    + destruct root_path; [discriminate | reflexivity].
  - intros Hall. apply negb_false_iff in Hall.
    destruct root_path as [|c r]; [reflexivity|].
    rewrite (PyStrFacts.re_match_all_in_class _ Hall); [reflexivity|].
    discriminate.
Qed.

(** C5, where the code departs from it.  The parent part of the prim path
    "/World" + newline + "/Bottle" has a character outside the class, the
    newline at its end; [re.match] accepts it, because [$] matches before a
    final newline, and the wrapper uses it as it is, whatever the stage
    holds. *)
Theorem clone_trailing_newline_parent_is_literal (h : Host) :
  let root_path := ("/World" ++ String PyStr.newline EmptyString)%string in
  let prim_path := (root_path ++ "/Bottle")%string in
  PyStr.rsplit_slash prim_path = Some (root_path, "Bottle") /\
  PyStr.has_char_outside_class root_path = true /\
  is_regex_expression root_path = false /\
  candidates prim_path h = inr [prim_path].
Proof. repeat split. Qed.

End Wrapper.

(** *** A stage to run the wrapper on *)

(** A host that counts the calls made into it; a spawned prim is known by
    its path. *)
Definition example_spawn (prim_path : string) (cfg : SpawnerCfg) (n : nat)
    : string * nat :=
  (prim_path, S n).

(** A stage with three tables. *)
Definition example_find (pattern : string) (n : nat) : list string :=
  if String.eqb pattern "/World/Table_[0-9]"
  then ["/World/Table_0"; "/World/Table_1"; "/World/Table_2"]
  else [].

Definition example_step (e : @Event string) (n : nat) : nat := S n.

Definition example_cfg : SpawnerCfg :=
  {| visible := Some true;
     semantic_tags := Some (Some [("object type", "soda can")]);
     activate_contact_sensors := Some (PyBool true);
     copy_from_source := true |}.

(** The same configuration with an integer as contact-sensor selector. *)
Definition integer_selector_cfg : SpawnerCfg :=
  {| visible := Some true;
     semantic_tags := Some (Some [("object type", "soda can")]);
     activate_contact_sensors := Some (PyInt 1);
     copy_from_source := true |}.

Definition example_run (version : Z) (prim_path : string) (cfg : SpawnerCfg)
    : World * (Exc + string) :=
  run example_spawn example_find example_step version prim_path cfg 0.

Example run_three_tables :
  example_run 2023 "/World/Table_[0-9]/Bottle" example_cfg =
  ({| host := 9;
      trace :=
        [Spawn "/World/Table_0/Bottle" example_cfg;
         SetPrimVisibility "/World/Table_0/Bottle" true;
         SemanticsApply "/World/Table_0/Bottle" "object_type_soda_can";
         CreateSemanticTypeAttr "/World/Table_0/Bottle" "object_type_soda_can";
         CreateSemanticDataAttr "/World/Table_0/Bottle" "object_type_soda_can";
         SetSemanticType "/World/Table_0/Bottle" "object_type_soda_can"
           "object type";
         SetSemanticData "/World/Table_0/Bottle" "object_type_soda_can"
           "soda can";
         ActivateContactSensors "/World/Table_0/Bottle" one_float;
         ClonerClone "/World/Table_0/Bottle"
           ["/World/Table_1/Bottle"; "/World/Table_2/Bottle"] false
           (Some true)] |},
   inr "/World/Table_0/Bottle").
Proof. reflexivity. Qed.

Example run_three_tables_2022 :
  filter is_clone
    (trace (fst (example_run 2022 "/World/Table_[0-9]/Bottle" example_cfg)))
  = [ClonerClone "/World/Table_0/Bottle"
       ["/World/Table_1/Bottle"; "/World/Table_2/Bottle"] false None].
Proof. reflexivity. Qed.

Example run_literal :
  example_run 2023 "/World/Bottle" example_cfg =
  ({| host := 8;
      trace :=
        [Spawn "/World/Bottle" example_cfg;
         SetPrimVisibility "/World/Bottle" true;
         SemanticsApply "/World/Bottle" "object_type_soda_can";
         CreateSemanticTypeAttr "/World/Bottle" "object_type_soda_can";
         CreateSemanticDataAttr "/World/Bottle" "object_type_soda_can";
         SetSemanticType "/World/Bottle" "object_type_soda_can" "object type";
         SetSemanticData "/World/Bottle" "object_type_soda_can" "soda can";
         ActivateContactSensors "/World/Bottle" one_float] |},
   inr "/World/Bottle").
Proof. reflexivity. Qed.

Example run_no_slash :
  example_run 2023 "Bottle" example_cfg =
  ({| host := 0; trace := [] |},
   inl (ValueError "not enough values to unpack (expected 2, got 1)")).
Proof. reflexivity. Qed.

(** With an integer as selector and three resolved paths, the wrapper
    spawns, raises [ValueError] and never calls the cloner. *)
Lemma clone_integer_selector_skips_cloner :
  candidates (Handle := string) example_find "/World/Table_[0-9]/Bottle" 0
    = inr ["/World/Table_0/Bottle"; "/World/Table_1/Bottle";
           "/World/Table_2/Bottle"] /\
  snd (example_run 2023 "/World/Table_[0-9]/Bottle" integer_selector_cfg)
    = inl (ValueError "") /\
  filter is_spawn
    (trace (fst (example_run 2023 "/World/Table_[0-9]/Bottle"
                   integer_selector_cfg)))
    = [Spawn "/World/Table_0/Bottle" integer_selector_cfg] /\
  filter is_clone
    (trace (fst (example_run 2023 "/World/Table_[0-9]/Bottle"
                   integer_selector_cfg)))
    = [].
Proof. repeat split. Qed.

(** With an integer as selector and a pattern that matches nothing, the
    wrapper raises the [RuntimeError] of the resolution, not [ValueError]. *)
Lemma clone_integer_selector_unresolved_pattern :
  activate_contact_sensors integer_selector_cfg = Some (PyInt 1) /\
  is_str_or_bool (PyInt 1) = false /\
  example_run 2023 "/World/Chair_[0-9]/Bottle" integer_selector_cfg
    = ({| host := 0; trace := [] |},
       inl (RuntimeError
              "Unable to find source prim path: '/World/Chair_[0-9]'. Please create the prim before spawning.")) /\
  snd (example_run 2023 "/World/Chair_[0-9]/Bottle" integer_selector_cfg)
    <> inl (ValueError "").
Proof. repeat split. discriminate. Qed.

Lemma clone_spawns_once_then_clones_witness :
  exists first others,
    ["/World/Table_0/Bottle"; "/World/Table_1/Bottle"; "/World/Table_2/Bottle"]
      = first :: others /\
    filter is_spawn
      (trace (fst (example_run 2023 "/World/Table_[0-9]/Bottle" example_cfg)))
      = [Spawn first example_cfg] /\
    (supported_selector example_cfg = true ->
     snd (example_run 2023 "/World/Table_[0-9]/Bottle" example_cfg)
       = inr (fst (example_spawn first example_cfg 0)) /\
     filter is_clone
       (trace (fst (example_run 2023 "/World/Table_[0-9]/Bottle" example_cfg)))
       = if 1 <? 3
         then [ClonerClone first others false
                 (if (2023 <=? 2022)%Z then None
                  else Some (copy_from_source example_cfg))]
         else []) /\
    (supported_selector example_cfg = false ->
     snd (example_run 2023 "/World/Table_[0-9]/Bottle" example_cfg)
       = inl (ValueError "") /\
     filter is_clone
       (trace (fst (example_run 2023 "/World/Table_[0-9]/Bottle" example_cfg)))
       = []).
Proof.
  apply (clone_spawns_once_then_clones example_spawn example_find example_step
           2023 "/World/Table_[0-9]/Bottle" example_cfg 0).
  reflexivity.
Defined.

Lemma clone_unresolved_pattern_raises_witness :
  example_run 2023 "/World/Chair_[0-9]/Bottle" example_cfg =
  ({| host := 0; trace := [] |},
   inl (RuntimeError
          ("Unable to find source prim path: '" ++ "/World/Chair_[0-9]"
           ++ "'. Please create the prim before spawning.")%string)).
Proof.
  apply (clone_unresolved_pattern_raises example_spawn example_find
           example_step 2023 "/World/Chair_[0-9]/Bottle" example_cfg 0
           "/World/Chair_[0-9]" "Bottle").
  - reflexivity.
  - reflexivity.
  - discriminate.
  - reflexivity.
Defined.

Lemma clone_semantic_tags_sanitized_witness :
  In (SemanticsApply "/World/Table_0/Bottle" "object_type_soda_can")
     (trace (fst (example_run 2023 "/World/Table_[0-9]/Bottle" example_cfg))).
Proof.
  apply (proj1 (clone_semantic_tags_sanitized example_spawn example_find
                  example_step 2023)
           "/World/Table_[0-9]/Bottle" example_cfg 0
           "/World/Table_0/Bottle"
           ["/World/Table_1/Bottle"; "/World/Table_2/Bottle"]
           [("object type", "soda can")] "object type" "soda can").
  - reflexivity.
  - reflexivity.
  - left. reflexivity.
Defined.

Lemma clone_never_replicates_physics_witness :
  false = false /\
  Some true = (if (2023 <=? 2022)%Z then None
               else Some (copy_from_source example_cfg)).
Proof.
  apply (clone_never_replicates_physics example_spawn example_find
           example_step 2023 "/World/Table_[0-9]/Bottle" example_cfg 0
           "/World/Table_0/Bottle"
           ["/World/Table_1/Bottle"; "/World/Table_2/Bottle"]).
  do 8 right. left. reflexivity.
Defined.

Lemma clone_unsupported_selector_raises_witness :
  (exists e,
     snd (example_run 2023 "/World/Table_[0-9]/Bottle" integer_selector_cfg)
       = inl e) /\
  (forall prim_paths,
     candidates (Handle := string) example_find "/World/Table_[0-9]/Bottle" 0 = inr prim_paths ->
     snd (example_run 2023 "/World/Table_[0-9]/Bottle" integer_selector_cfg)
       = inl (ValueError "")) /\
  (forall e,
     candidates (Handle := string) example_find "/World/Table_[0-9]/Bottle" 0 = inl e ->
     example_run 2023 "/World/Table_[0-9]/Bottle" integer_selector_cfg
       = ({| host := 0; trace := [] |}, inl e)).
Proof.
  apply (clone_unsupported_selector_raises example_spawn example_find
           example_step 2023 "/World/Table_[0-9]/Bottle"
           integer_selector_cfg 0 (PyInt 1)).
  - reflexivity.
  - reflexivity.
Defined.

End Clone.

(** ** The attribute setters *)

Module Setters.

(** The value types the prim setter creates an attribute with. *)
Inductive SdfValueTypeName : Type :=
| SdfBool
| SdfInt
| SdfFloat
| SdfFloat3
| SdfFloat2.

(** [value is None]. *)
Definition is_none (value : PyVal) : bool :=
  match value with PyNone => true | _ => false end.

(** [isinstance(v, float)]. *)
Definition is_float (v : PyVal) : bool :=
  match v with PyFloat _ => true | _ => false end.

(** Lines 92-105: the type to create the attribute with, or [None] where the
    code raises [NotImplementedError].  A boolean is tested before an
    integer, as in the code. *)
Definition resolve_sdf_type (value : PyVal) : option SdfValueTypeName :=
  match value with
  | PyBool _ => Some SdfBool
  | PyInt _ => Some SdfInt
  | PyFloat _ => Some SdfFloat
  | PyTuple items | PyList items =>
      if (List.length items =? 3) && existsb is_float items then Some SdfFloat3
      else if (List.length items =? 2) && existsb is_float items
           then Some SdfFloat2
           else None
  | _ => None
  end.

Section WithHost.

(** The state of the host, and the handle of a stage. *)
Context {Host Stage : Type}.

(** [to_camel_case(name, to=...)] of [omni.isaac.orbit.utils.string], which
    is not part of the sources at hand: taken as given. *)
Variable to_camel_case : string -> string -> string.

(** How an f-string renders a value ([str] of the value). *)
Variable py_str : PyVal -> string.

(** A schema API object: the path of its prim and the names of the
    attributes of the Python object, which [getattr] looks up. *)
Record SchemaAPI : Type := mkSchemaAPI {
  schema_path : string;
  schema_members : list string
}.

(** A prim as the prim setter reads it. *)
Record UsdPrim : Type := mkUsdPrim {
  prim_path : string;
  prim_stage : Stage
}.

(** The calls the setters make that act on the host. *)
Inductive Event : Type :=
| AttrSet (schema_path : string) (creator : string) (value : PyVal)
| LogError (msg : string)
| ChangePropertyCommand (prop_path : string) (value : PyVal)
    (type_to_create_if_not_exist : SdfValueTypeName)
    (usd_context_name : Stage).

(** What each call does to the host. *)
Variable host_step : Event -> Host -> Host.

Record World : Type := mkWorld {
  host : Host;
  trace : list Event
}.

Definition call (e : Event) : M World unit :=
  fun w => ({| host := host_step e (host w); trace := trace w ++ [e] |}, inr tt).

(** [getattr(schema_api, member, None) is not None]. *)
Definition has_member (schema_api : SchemaAPI) (member : string) : bool :=
  existsb (String.eqb member) (schema_members schema_api).

Definition safe_set_attribute_on_usd_schema (schema_api : SchemaAPI)
    (name : string) (value : PyVal) (camel_case : bool) : M World unit :=
  if is_none value then ret tt
  else
    let attr_name := if camel_case then to_camel_case name "CC" else name in
    let creator := ("Create" ++ attr_name ++ "Attr")%string in
    if has_member schema_api creator
    then call (AttrSet (schema_path schema_api) creator value)
    else
      let msg := ("Attribute '" ++ attr_name ++ "' does not exist on prim '"
                  ++ schema_path schema_api ++ "'.")%string in
      call (LogError msg) ;;;
      raise (TypeError msg).

Definition safe_set_attribute_on_usd_prim (prim : UsdPrim)
    (attr_name : string) (value : PyVal) (camel_case : bool) : M World unit :=
  if is_none value then ret tt
  else
    let attr_name :=
      if camel_case then to_camel_case attr_name "cC" else attr_name in
    match resolve_sdf_type value with
    | Some sdf_type =>
        call (ChangePropertyCommand
                (prim_path prim ++ "." ++ attr_name)%string
                value sdf_type (prim_stage prim))
    | None =>
        raise (NotImplementedError
                 ("Cannot set attribute '" ++ attr_name ++ "' with value '"
                  ++ py_str value
                  ++ "'. Please modify the code to support this type.")%string)
    end.

(** C10.  With the value [None], each of the two setters returns at once:
    it returns normally, makes no call into the host, and leaves the host
    as it is, for every schema or prim, every name and either value of
    [camel_case]. *)
Theorem safe_set_attribute_none_is_noop
    (schema_api : SchemaAPI) (prim : UsdPrim) (name : string)
    (camel_case : bool) (w : World) :
  safe_set_attribute_on_usd_schema schema_api name PyNone camel_case w
    = (w, inr tt) /\
  safe_set_attribute_on_usd_prim prim name PyNone camel_case w
    = (w, inr tt).
Proof.
  unfold safe_set_attribute_on_usd_schema, safe_set_attribute_on_usd_prim.
  simpl is_none. unfold ret. split; reflexivity.
Qed.

(** A value other than [None] takes each setter past its first line: it
    makes a call into the host or raises. *)
Lemma safe_set_attribute_value_acts
    (schema_api : SchemaAPI) (prim : UsdPrim) (name : string) (value : PyVal)
    (camel_case : bool) (w : World) :
  is_none value = false ->
  safe_set_attribute_on_usd_schema schema_api name value camel_case w
    <> (w, inr tt) /\
  safe_set_attribute_on_usd_prim prim name value camel_case w
    <> (w, inr tt).
Proof.
  intros Hval.
  assert (Hgrow : forall e, trace w ++ [e] <> trace w).
  { intros e H. apply (f_equal (@List.length Event)) in H.
    rewrite List.length_app in H. simpl in H. lia. }
  unfold safe_set_attribute_on_usd_schema, safe_set_attribute_on_usd_prim.
  rewrite Hval. split.
  - destruct (has_member _ _); unfold bind, call, raise; simpl;
      intros H; [|discriminate].
    injection H as H. apply (f_equal trace) in H. simpl in H.
    exact (Hgrow _ H).
  - destruct (resolve_sdf_type value); unfold call, raise;
      intros H; [|discriminate].
    injection H as H. apply (f_equal trace) in H. simpl in H.
    exact (Hgrow _ H).
Qed.

End WithHost.

(** *** The setters on a schema with one attribute *)

Definition example_camel (name mode : string) : string :=
  if String.eqb name "rigid_body_enabled" then
    if String.eqb mode "CC" then "RigidBodyEnabled" else "rigidBodyEnabled"
  else name.

Definition example_str (value : PyVal) : string :=
  match value with PyStr s => s | _ => "?" end.

Definition example_schema : SchemaAPI :=
  {| schema_path := "/World/Robot";
     schema_members := ["CreateRigidBodyEnabledAttr"; "GetPath"] |}.

Definition example_prim : @UsdPrim unit :=
  {| prim_path := "/World/Looks/Shader"; prim_stage := tt |}.

Definition example_world : @World nat unit := {| host := 0; trace := [] |}.

Definition count_step (e : @Event unit) (n : nat) : nat := S n.

Example schema_set_bool :
  safe_set_attribute_on_usd_schema example_camel count_step example_schema
    "rigid_body_enabled" (PyBool true) true example_world
  = ({| host := 1;
        trace := [AttrSet "/World/Robot" "CreateRigidBodyEnabledAttr"
                    (PyBool true)] |},
     inr tt).
Proof. reflexivity. Qed.

Example schema_set_unknown :
  safe_set_attribute_on_usd_schema example_camel count_step example_schema
    "mass" (PyInt 2) false example_world
  = ({| host := 1;
        trace := [LogError
                    "Attribute 'mass' does not exist on prim '/World/Robot'."] |},
     inl (TypeError "Attribute 'mass' does not exist on prim '/World/Robot'.")).
Proof. reflexivity. Qed.

Example schema_set_none :
  safe_set_attribute_on_usd_schema example_camel count_step example_schema
    "mass" PyNone false example_world
  = (example_world, inr tt).
Proof. reflexivity. Qed.

Example prim_set_float3 :
  safe_set_attribute_on_usd_prim example_camel example_str count_step
    example_prim "diffuse_tint" (PyTuple [PyFloat 0; PyInt 1; PyInt 0]) false
    example_world
  = ({| host := 1;
        trace := [ChangePropertyCommand "/World/Looks/Shader.diffuse_tint"
                    (PyTuple [PyFloat 0; PyInt 1; PyInt 0]) SdfFloat3 tt] |},
     inr tt).
Proof. reflexivity. Qed.

Example prim_set_string :
  safe_set_attribute_on_usd_prim example_camel example_str count_step
    example_prim "name" (PyStr "steel") false example_world
  = (example_world,
     inl (NotImplementedError
            "Cannot set attribute 'name' with value 'steel'. Please modify the code to support this type.")).
Proof. reflexivity. Qed.

Example prim_set_none :
  safe_set_attribute_on_usd_prim example_camel example_str count_step
    example_prim "name" PyNone true example_world
  = (example_world, inr tt).
Proof. reflexivity. Qed.

End Setters.

(** ** More on [apply_nested] *)

Module ApplyNestedWalk.

Import ApplyNested.

Section Walk.

Context {Host : Type}.
Variable func : string -> Host -> bool * Host.
Variable func_name : string.
Variable repr_paths : list string -> string.

(** The prims a walk from [p] can take from the queue when [func] succeeds
    nowhere: [p], and the prims exposed below [p] unless [p] is an
    instance. *)
Fixpoint exposed (p : Prim) : list Prim :=
  match p with
  | mkPrim _ is_instance cs =>
      p :: (if is_instance then []
            else (fix over (l : list Prim) : list Prim :=
                    match l with
                    | [] => []
                    | c :: l' => exposed c ++ over l'
                    end) cs)
  end.

Lemma exposed_unfold (p : Prim) :
  exposed p =
  p :: (if IsInstance p then [] else flat_map exposed (GetChildren p)).
Proof.
  destruct p as [s [|] cs]; reflexivity.
Qed.

(** [func] run over a list of recorded calls from the host state [h]: the
    state it ends in, and whether each recorded result is what [func]
    returns at that point. *)
Fixpoint replay (recorded : list (string * bool)) (h : Host) : Host :=
  match recorded with
  | [] => h
  | (p, _) :: rest => replay rest (snd (func p h))
  end.

Fixpoint replays (recorded : list (string * bool)) (h : Host) : Prop :=
  match recorded with
  | [] => True
  | (p, b) :: rest => fst (func p h) = b /\ replays rest (snd (func p h))
  end.

(** The walk from loop entry, by what its first iteration records. *)
Lemma walk_calls (c : Prim) (rest : list Prim) (h : Host) :
  calls (while_loop func (c :: rest) (start h)) =
  if IsInstance c then calls (while_loop func rest (start h))
  else (GetPath c, fst (func (GetPath c) h)) ::
       calls (while_loop func
                (if fst (func (GetPath c) h) then rest
                 else rest ++ GetChildren c)
                (start (snd (func (GetPath c) h)))).
Proof.
  rewrite while_loop_start. destruct (IsInstance c); [reflexivity|].
  destruct (func (GetPath c) h) as [b h']. reflexivity.
Qed.

Lemma walk_instanced (c : Prim) (rest : list Prim) (h : Host) :
  instanced_prim_paths (while_loop func (c :: rest) (start h)) =
  if IsInstance c
  then GetPath c :: instanced_prim_paths (while_loop func rest (start h))
  else instanced_prim_paths
         (while_loop func
            (if fst (func (GetPath c) h) then rest
             else rest ++ GetChildren c)
            (start (snd (func (GetPath c) h)))).
Proof.
  rewrite while_loop_start. destruct (IsInstance c); [reflexivity|].
  destruct (func (GetPath c) h) as [b h']. reflexivity.
Qed.

Lemma walk_host (c : Prim) (rest : list Prim) (h : Host) :
  host (while_loop func (c :: rest) (start h)) =
  if IsInstance c then host (while_loop func rest (start h))
  else host (while_loop func
               (if fst (func (GetPath c) h) then rest
                else rest ++ GetChildren c)
               (start (snd (func (GetPath c) h)))).
Proof.
  rewrite while_loop_start. destruct (IsInstance c); [reflexivity|].
  destruct (func (GetPath c) h) as [b h']. reflexivity.
Qed.

Lemma walk_nil (h : Host) : while_loop func [] (start h) = start h.
Proof. simp while_loop. reflexivity. Qed.

(** The recorded calls are the calls made, in order: each result is what
    [func] returned on the host state the calls before it left, and the
    final host state is the one the last call left. *)
Lemma walk_replays (q : list Prim) :
  forall h,
    replays (calls (while_loop func q (start h))) h /\
    host (while_loop func q (start h))
      = replay (calls (while_loop func q (start h))) h.
Proof.
  induction q as [|c rest IHrest IHchildren] using queue_ind; intros h.
  - rewrite walk_nil. simpl. auto.
  - rewrite walk_calls, walk_host.
    destruct (IsInstance c); [apply IHrest|].
    simpl replays. simpl replay.
    destruct (fst (func (GetPath c) h)).
    + destruct (IHrest (snd (func (GetPath c) h))) as [H1 H2]. auto.
    + destruct (IHchildren (snd (func (GetPath c) h))) as [H1 H2]. auto.
Qed.

(** Every prim of the queue is taken from it. *)
Lemma queue_visited (q : list Prim) :
  forall h n, In n q ->
  In (GetPath n) (visited (while_loop func q (start h))).
Proof.
  induction q as [|c rest IHrest IHchildren] using queue_ind;
    intros h n Hn; [contradiction|].
  rewrite while_loop_start.
  destruct (IsInstance c).
  - rewrite in_visited_instance. destruct Hn as [->|Hn]; [auto|].
    right. exact (IHrest h n Hn).
  - destruct (func (GetPath c) h) as [[|] h']; rewrite (in_visited_call func func_name);
      (destruct Hn as [->|Hn]; [auto|right]).
    + exact (IHrest h' n Hn).
    + apply IHchildren. apply in_or_app. auto.
Qed.

(** When [func] fails at a prim, its children are taken from the queue. *)
Lemma failed_children_visited (q : list Prim) :
  forall h, NoDup (map GetPath (forest q)) ->
  forall n, In n (forest q) ->
  In (GetPath n, false) (calls (while_loop func q (start h))) ->
  forall c, In c (GetChildren n) ->
  In (GetPath c) (visited (while_loop func q (start h))).
Proof.
  induction q as [|c0 rest IHrest IHchildren] using queue_ind;
    intros h Hnd n Hn Hcall c Hc; [contradiction|].
  destruct (NoDup_queue func func_name _ _ Hnd)
    as (Hc1 & Hc2 & Hdisj & Hnd1 & Hnd2).
  pose proof (fun a b => NoDup_map_injective GetPath _ Hnd a b) as Hinj.
  rewrite while_loop_start in Hcall |- *.
  assert (Hrest : forall h',
            In (GetPath n, false) (calls (while_loop func rest (start h'))) ->
            In (GetPath c) (visited (while_loop func rest (start h')))).
  { intros h' Hin.
    destruct (calls_sound func func_name _ _ _ _ Hin) as (n' & Hn' & Hp & _).
    assert (n' = n) as ->.
    { apply Hinj; [|exact Hn|exact Hp].
      apply (in_forest_cons func func_name). auto. }
    exact (IHrest h' Hnd1 n Hn' Hin c Hc). }
  destruct (IsInstance c0).
  - rewrite in_visited_instance. right. apply Hrest. exact Hcall.
  - destruct (func (GetPath c0) h) as [[|] h']; rewrite (in_visited_call func func_name); right.
    + apply Hrest. simpl in Hcall. destruct Hcall as [Heq|Hin];
        [discriminate | exact Hin].
    + simpl in Hcall. destruct Hcall as [Heq|Hin].
      * injection Heq as Hp.
        assert (c0 = n) as ->.
        { apply Hinj; [apply (in_forest_cons func func_name); auto | exact Hn | exact Hp]. }
        apply queue_visited. apply in_or_app. auto.
      * destruct (calls_sound func func_name _ _ _ _ Hin)
          as (n' & Hn' & Hp & _).
        assert (n' = n) as ->.
        { apply Hinj; [|exact Hn|exact Hp].
          apply (in_forest_cons func func_name). apply in_forest_enqueue in Hn'. tauto. }
        exact (IHchildren h' Hnd2 n Hn' Hin c Hc).
Qed.

(** No path is taken from the queue twice. *)
Lemma visited_NoDup (q : list Prim) :
  forall h, NoDup (map GetPath (forest q)) ->
  NoDup (visited (while_loop func q (start h))).
Proof.
  induction q as [|c rest IHrest IHchildren] using queue_ind; intros h Hnd.
  - rewrite walk_nil. constructor.
  - destruct (NoDup_queue func func_name _ _ Hnd)
      as (Hc1 & Hc2 & Hdisj & Hnd1 & Hnd2).
    assert (Hc3 : ~ In (GetPath c)
                    (map GetPath (forest (rest ++ GetChildren c)))).
    { rewrite forest_app, map_app, <- descendants_forest, in_app_iff. tauto. }
    rewrite while_loop_start.
    destruct (IsInstance c).
    + unfold visited; simpl. constructor; [|exact (IHrest h Hnd1)].
      intros Hin. apply Hc2.
      exact (visited_sound func func_name _ _ _ Hin).
    + destruct (func (GetPath c) h) as [[|] h']; unfold visited; simpl;
        apply (Permutation_NoDup (Permutation_middle _ _ _));
        constructor.
      * intros Hin. apply Hc2.
        exact (visited_sound func func_name _ _ _ Hin).
      * exact (IHrest h' Hnd1).
      * intros Hin. apply Hc3.
        exact (visited_sound func func_name _ _ _ Hin).
      * exact (IHchildren h' Hnd2).
Qed.

Definition not_instance (p : Prim) : bool := negb (IsInstance p).

(** When [func] fails everywhere, the walk calls it at the exposed prims
    that are not instances and records the exposed instances. *)
Lemma all_fail_walk (q : list Prim) :
  (forall p h, fst (func p h) = false) ->
  forall h,
    Permutation (map fst (calls (while_loop func q (start h))))
                (map GetPath (filter not_instance (flat_map exposed q))) /\
    Permutation (instanced_prim_paths (while_loop func q (start h)))
                (map GetPath (filter IsInstance (flat_map exposed q))) /\
    Forall (fun c => snd c = false) (calls (while_loop func q (start h))).
Proof.
  intros Hfail.
  induction q as [|c rest IHrest IHchildren] using queue_ind; intros h.
  - rewrite walk_nil. simpl. auto.
  - rewrite walk_calls, walk_instanced. simpl flat_map.
    rewrite exposed_unfold. unfold not_instance at 1.
    destruct (IsInstance c) eqn:Hinst; simpl.
    + rewrite Hinst. simpl.
      destruct (IHrest h) as (H1 & H2 & H3). auto.
    + rewrite Hinst, Hfail. simpl.
      destruct (IHchildren (snd (func (GetPath c) h))) as (H1 & H2 & H3).
      rewrite flat_map_app, filter_app, map_app in H1, H2.
      rewrite !filter_app, !map_app. repeat split.
      * constructor. rewrite H1. apply Permutation_app_comm.
      * rewrite H2. apply Permutation_app_comm.
      * constructor; [reflexivity | exact H3].
Qed.

Lemma GetPrimAtPath_path (stage prim : Prim) (prim_path : string) :
  GetPrimAtPath stage prim_path = Some prim -> GetPath prim = prim_path.
Proof.
  intros H. apply find_some in H as [_ H]. apply String.eqb_eq. exact H.
Qed.


(** X2.  On a stage whose paths identify its prims, no path is taken from
    the queue twice: [func] is called at most once at each path, and no path is
    both recorded as instanced and passed to [func]. *)
Theorem apply_nested_visits_each_path_once
    (current_stage : Prim) (stage : option Prim) (prim_path : string)
    (h : Host) (prim : Prim) :
  NoDup (map GetPath (subtree (resolved_stage current_stage stage))) ->
  GetPrimAtPath (resolved_stage current_stage stage) prim_path = Some prim ->
  exists out,
    wrapper func func_name repr_paths current_stage stage prim_path h
      = inr out /\
    NoDup (instanced_prim_paths (walked out) ++ map fst (calls (walked out))).
Proof.
  intros Hnd Hfind. unfold wrapper. rewrite Hfind.
  eexists. split; [reflexivity|]. simpl walked.
  apply visited_NoDup.
  apply (forest_single_NoDup _ _ Hnd).
  exact (GetPrimAtPath_member func func_name _ _ _ Hfind).
Qed.

(** X3.  On a stage whose paths identify its prims, when [func] returns false at
    a prim, every child of that prim is taken from the queue: it is passed
    to [func] or recorded as instanced. *)
Theorem apply_nested_failure_descends
    (current_stage : Prim) (stage : option Prim) (prim_path : string)
    (h : Host) (prim : Prim) :
  NoDup (map GetPath (subtree (resolved_stage current_stage stage))) ->
  GetPrimAtPath (resolved_stage current_stage stage) prim_path = Some prim ->
  exists out,
    wrapper func func_name repr_paths current_stage stage prim_path h
      = inr out /\
    forall n, In n (subtree (resolved_stage current_stage stage)) ->
      In (GetPath n, false) (calls (walked out)) ->
      forall c, In c (GetChildren n) ->
        In (GetPath c) (instanced_prim_paths (walked out))
        \/ exists b, In (GetPath c, b) (calls (walked out)).
Proof.
  intros Hnd Hfind. unfold wrapper. rewrite Hfind.
  eexists. split; [reflexivity|]. simpl walked.
  pose proof (GetPrimAtPath_member func func_name _ _ _ Hfind) as Hprim.
  intros n Hn Hcall c Hc.
  assert (Hv : In (GetPath n) (visited (while_loop func [prim] (start h)))).
  { unfold visited. apply in_or_app. right.
    apply (in_map fst) in Hcall. exact Hcall. }
  pose proof (visited_member func func_name _ _ _ h Hnd Hprim Hn Hv) as Hn'.
  pose proof (failed_children_visited [prim] h
                (forest_single_NoDup _ _ Hnd Hprim) n Hn' Hcall c Hc) as Hvc.
  unfold visited in Hvc. apply in_app_or in Hvc as [Hvc|Hvc]; [auto|].
  right. apply in_map_iff in Hvc as ((p, b) & Hp & Hvc). simpl in Hp.
  subst p. eauto.
Qed.

(** X4.  The host state is touched by [func] only, one call after the other:
    each recorded result is what [func] returned on the state the calls
    before it left, and the final state is the one the last call left. *)
Theorem apply_nested_threads_host
    (current_stage : Prim) (stage : option Prim) (prim_path : string)
    (h : Host) (out : Outcome) :
  wrapper func func_name repr_paths current_stage stage prim_path h = inr out ->
  replays (calls (walked out)) h /\
  host (walked out) = replay (calls (walked out)) h.
Proof.
  unfold wrapper.
  destruct (GetPrimAtPath (resolved_stage current_stage stage) prim_path)
    as [prim|]; [|discriminate].
  intros H. injection H as <-. simpl walked. apply walk_replays.
Qed.

(** X5.  When [func] succeeds at the root prim, which is not an instance, the
    walk is that single call, whatever lies below the root, and no warning
    is logged. *)
Theorem apply_nested_success_at_root
    (current_stage : Prim) (stage : option Prim) (prim_path : string)
    (h : Host) (prim : Prim) :
  GetPrimAtPath (resolved_stage current_stage stage) prim_path = Some prim ->
  IsInstance prim = false ->
  fst (func prim_path h) = true ->
  wrapper func func_name repr_paths current_stage stage prim_path h
  = inr {| walked := {| count_success := 1;
                        instanced_prim_paths := [];
                        calls := [(prim_path, true)];
                        host := snd (func prim_path h) |};
           log_warn := [] |}.
Proof.
  intros Hfind Hinst Hsucc. unfold wrapper. rewrite Hfind.
  rewrite while_loop_start, Hinst, (GetPrimAtPath_path _ _ _ Hfind).
  destruct (func prim_path h) as [b h']. simpl in Hsucc. subst b.
  rewrite walk_nil. reflexivity.
Qed.

(** X6.  When the root prim is an instance, [func] is not called, the host is as
    it was, the root path is the one recorded instanced path and the warning
    is logged. *)
Theorem apply_nested_instance_root
    (current_stage : Prim) (stage : option Prim) (prim_path : string)
    (h : Host) (prim : Prim) :
  GetPrimAtPath (resolved_stage current_stage stage) prim_path = Some prim ->
  IsInstance prim = true ->
  wrapper func func_name repr_paths current_stage stage prim_path h
  = inr {| walked := {| count_success := 0;
                        instanced_prim_paths := [prim_path];
                        calls := [];
                        host := h |};
           log_warn := [warning func_name repr_paths prim_path [prim_path]] |}.
Proof.
  intros Hfind Hinst. unfold wrapper. rewrite Hfind.
  rewrite while_loop_start, Hinst, (GetPrimAtPath_path _ _ _ Hfind).
  rewrite walk_nil. reflexivity.
Qed.

(** X7.  When [func] fails everywhere, it is called once at each prim under the
    root that is not an instance and does not lie below one, the instances
    not below another instance are the recorded instanced paths, the
    success count is zero and the warning is logged. *)
Theorem apply_nested_all_fail
    (current_stage : Prim) (stage : option Prim) (prim_path : string)
    (h : Host) (prim : Prim) :
  (forall p h', fst (func p h') = false) ->
  GetPrimAtPath (resolved_stage current_stage stage) prim_path = Some prim ->
  exists out,
    wrapper func func_name repr_paths current_stage stage prim_path h
      = inr out /\
    Permutation (map fst (calls (walked out)))
                (map GetPath (filter not_instance (exposed prim))) /\
    Permutation (instanced_prim_paths (walked out))
                (map GetPath (filter IsInstance (exposed prim))) /\
    count_success (walked out) = 0 /\
    log_warn out
      = [warning func_name repr_paths prim_path
           (instanced_prim_paths (walked out))].
Proof.
  intros Hfail Hfind. unfold wrapper. rewrite Hfind.
  destruct (all_fail_walk [prim] Hfail h) as (H1 & H2 & H3).
  simpl flat_map in H1, H2. rewrite app_nil_r in H1, H2.
  assert (Hcount : count_success (while_loop func [prim] (start h)) = 0).
  { rewrite count_success_calls. clear H1 H2.
    induction H3 as [|[p b] l Hb _ IH]; [reflexivity|].
    simpl in Hb. subst b. exact IH. }
  eexists. split; [reflexivity|]. simpl walked. simpl log_warn.
  rewrite Hcount. auto.
Qed.

End Walk.

Lemma example_world_prim :
  GetPrimAtPath (resolved_stage example_stage None) "/World"
  = Some (mkPrim "/World" false
            [mkPrim "/World/Robot" false
               [mkPrim "/World/Robot/base" false [];
                mkPrim "/World/Robot/arm" false []];
             mkPrim "/World/Table" true
               [mkPrim "/World/Table/top" false []]]).
Proof. reflexivity. Defined.

Lemma apply_nested_visits_each_path_once_witness :
  exists out,
    wrapper example_func "f" example_repr example_stage None "/World" 0
      = inr out /\
    NoDup (instanced_prim_paths (walked out) ++ map fst (calls (walked out))).
Proof.
  exact (apply_nested_visits_each_path_once example_func "f" example_repr
           example_stage None "/World" 0 _ example_stage_NoDup
           example_world_prim).
Defined.

Lemma apply_nested_failure_descends_witness :
  exists out,
    wrapper example_func "f" example_repr example_stage None "/World" 0
      = inr out /\
    forall n, In n (subtree (resolved_stage example_stage None)) ->
      In (GetPath n, false) (calls (walked out)) ->
      forall c, In c (GetChildren n) ->
        In (GetPath c) (instanced_prim_paths (walked out))
        \/ exists b, In (GetPath c, b) (calls (walked out)).
Proof.
  exact (apply_nested_failure_descends example_func "f" example_repr
           example_stage None "/World" 0 _ example_stage_NoDup
           example_world_prim).
Defined.

Lemma apply_nested_threads_host_witness :
  replays example_func [("/World", false); ("/World/Robot", true)] 0 /\
  2 = replay example_func [("/World", false); ("/World/Robot", true)] 0.
Proof.
  exact (apply_nested_threads_host example_func "f" example_repr
           example_stage None "/World" 0
           {| walked := {| count_success := 1;
                           instanced_prim_paths := ["/World/Table"];
                           calls := [("/World", false); ("/World/Robot", true)];
                           host := 2 |};
              log_warn := [] |}
           wrapper_example).
Defined.

Lemma apply_nested_success_at_root_witness :
  wrapper example_func "f" example_repr example_stage None "/World/Robot" 0
  = inr {| walked := {| count_success := 1;
                        instanced_prim_paths := [];
                        calls := [("/World/Robot", true)];
                        host := 1 |};
           log_warn := [] |}.
Proof.
  apply (apply_nested_success_at_root example_func "f" example_repr
           example_stage None "/World/Robot" 0
           (mkPrim "/World/Robot" false
              [mkPrim "/World/Robot/base" false [];
               mkPrim "/World/Robot/arm" false []])); reflexivity.
Defined.

Lemma apply_nested_instance_root_witness :
  wrapper example_func "f" example_repr example_stage None "/World/Table" 0
  = inr {| walked := {| count_success := 0;
                        instanced_prim_paths := ["/World/Table"];
                        calls := [];
                        host := 0 |};
           log_warn := [warning "f" example_repr "/World/Table"
                          ["/World/Table"]] |}.
Proof.
  apply (apply_nested_instance_root example_func "f" example_repr
           example_stage None "/World/Table" 0
           (mkPrim "/World/Table" true
              [mkPrim "/World/Table/top" false []])); reflexivity.
Defined.

Lemma apply_nested_all_fail_witness :
  exists out,
    wrapper failing_func "f" example_repr example_stage None "/World" 0
      = inr out /\
    Permutation (map fst (calls (walked out)))
                ["/World"; "/World/Robot"; "/World/Robot/base";
                 "/World/Robot/arm"] /\
    Permutation (instanced_prim_paths (walked out)) ["/World/Table"] /\
    count_success (walked out) = 0 /\
    log_warn out
      = [warning "f" example_repr "/World"
           (instanced_prim_paths (walked out))].
Proof.
  exact (apply_nested_all_fail failing_func "f" example_repr
           example_stage None "/World" 0 _ (fun _ _ => eq_refl)
           example_world_prim).
Defined.

End ApplyNestedWalk.

(** ** [make_uninstanceable] *)

Module MakeUninstanceable.

(** The longest chain of prims from [p] down, [p] included. *)
Fixpoint height (p : Prim) : nat :=
  match p with
  | mkPrim _ _ cs =>
      S ((fix over (l : list Prim) : nat :=
            match l with
            | [] => 0
            | c :: l' => Nat.max (height c) (over l')
            end) cs)
  end.

(** The prims [k] steps below [p], from left to right. *)
Fixpoint level (k : nat) (p : Prim) : list Prim :=
  match k with
  | 0 => [p]
  | S k' => flat_map (level k') (GetChildren p)
  end.

(** The prims of the subtree of [p], level by level. *)
Definition breadth_first (p : Prim) : list Prim :=
  flat_map (fun k => level k p) (seq 0 (height p)).

Section Walk.

(** The state of the host. *)
Context {Host : Type}.

(** The call the function makes that acts on the host. *)
Inductive Event : Type :=
| SetInstanceable (prim_path : string) (instanceable : bool).

(** What the call does to the host.  As for [apply_nested], the tree the
    walk reads is the one it started from: [IsInstance] and [GetChildren]
    of a prim are what they return when the walk asks. *)
Variable host_step : Event -> Host -> Host.

Record World : Type := mkWorld {
  host : Host;
  trace : list Event
}.

(** [child_prim.SetInstanceable(instanceable)]. *)
Definition set_instanceable (child_prim : Prim) (instanceable : bool)
    (w : World) : World :=
  {| host := host_step (SetInstanceable (GetPath child_prim) instanceable)
               (host w);
     trace := trace w ++ [SetInstanceable (GetPath child_prim) instanceable] |}.

(** The [while len(all_prims) > 0] loop. *)
Equations? uninstance_loop (all_prims : list Prim) (w : World) : World
  by wf (List.length (forest all_prims)) lt :=
uninstance_loop [] w := w;
uninstance_loop (child_prim :: all_prims) w :=
  uninstance_loop (all_prims ++ GetChildren child_prim)
    (if IsInstance child_prim then set_instanceable child_prim false w
     else w).
Proof.
  rewrite ApplyNested.forest_app, ApplyNested.descendants_forest,
    !List.length_app. lia.
Qed.

(** The function.  [stage] is the [stage] argument ([None] when it is not
    given or is [None]), [current_stage] what
    [stage_utils.get_current_stage()] returns. *)
Definition make_uninstanceable (current_stage : Prim) (stage : option Prim)
    (prim_path : string) (h : Host) : Exc + World :=
  match GetPrimAtPath (ApplyNested.resolved_stage current_stage stage)
          prim_path with
  | None =>
      inl (ValueError ("Prim at path '" ++ prim_path ++ "' is not valid.")%string)
  | Some prim => inr (uninstance_loop [prim] {| host := h; trace := [] |})
  end.

(** *** The calls of a walk *)

(** The calls made for a list of prims taken from the queue in that
    order. *)
Definition uninstance_events (prims : list Prim) : list Event :=
  map (fun p => SetInstanceable (GetPath p) false) (filter IsInstance prims).

(** The world after a list of calls. *)
Definition apply_events (evs : list Event) (w : World) : World :=
  {| host := fold_left (fun h e => host_step e h) evs (host w);
     trace := trace w ++ evs |}.

Lemma uninstance_events_nil (w : World) : apply_events [] w = w.
Proof. destruct w; unfold apply_events; simpl. rewrite app_nil_r. reflexivity. Qed.

Lemma uninstance_events_compose (e1 e2 : list Event) (w : World) :
  apply_events e2 (apply_events e1 w) = apply_events (e1 ++ e2) w.
Proof.
  unfold apply_events; simpl. rewrite fold_left_app, app_assoc. reflexivity.
Qed.

Lemma uninstance_events_app (l1 l2 : list Prim) :
  uninstance_events (l1 ++ l2) = uninstance_events l1 ++ uninstance_events l2.
Proof. unfold uninstance_events. rewrite filter_app, map_app. reflexivity. Qed.

Lemma uninstance_loop_cons (c : Prim) (rest : list Prim) (w : World) :
  uninstance_loop (c :: rest) w =
  uninstance_loop (rest ++ GetChildren c)
    (apply_events (uninstance_events [c]) w).
Proof.
  simp uninstance_loop. unfold uninstance_events. simpl.
  destruct (IsInstance c); [reflexivity|].
  simpl. rewrite uninstance_events_nil. reflexivity.
Qed.

(** A walk takes the whole queue before any of the children it adds. *)
Lemma uninstance_loop_app (l1 : list Prim) :
  forall l2 w,
    uninstance_loop (l1 ++ l2) w =
    uninstance_loop (l2 ++ flat_map GetChildren l1)
      (apply_events (uninstance_events l1) w).
Proof.
  induction l1 as [|c l1 IH]; intros l2 w.
  - simpl. rewrite app_nil_r, uninstance_events_nil. reflexivity.
  - simpl app. rewrite uninstance_loop_cons, <- app_assoc, IH.
    rewrite uninstance_events_compose, <- uninstance_events_app, <- app_assoc.
    reflexivity.
Qed.

(** The prims of a queue, level by level down to depth [n]. *)
Definition levels (n : nat) (q : list Prim) : list Prim :=
  flat_map (fun k => flat_map (level k) q) (seq 0 n).

Lemma level_zero (q : list Prim) : flat_map (level 0) q = q.
Proof.
  induction q as [|p q IH]; [reflexivity|].
  simpl. f_equal. exact IH.
Qed.

Lemma level_succ (k : nat) (q : list Prim) :
  flat_map (level (S k)) q = flat_map (level k) (flat_map GetChildren q).
Proof.
  induction q as [|p q IH]; [reflexivity|].
  change (flat_map (level (S k)) (p :: q))
    with (level (S k) p ++ flat_map (level (S k)) q).
  change (flat_map GetChildren (p :: q))
    with (GetChildren p ++ flat_map GetChildren q).
  rewrite IH, flat_map_app. reflexivity.
Qed.

Lemma levels_succ (n : nat) (q : list Prim) :
  levels (S n) q = q ++ levels n (flat_map GetChildren q).
Proof.
  unfold levels. change (seq 0 (S n)) with (0 :: seq 1 n).
  cbn [flat_map]. rewrite level_zero. f_equal.
  rewrite <- seq_shift, flat_map_concat_map, map_map, <- flat_map_concat_map.
  apply flat_map_ext. intros k. apply level_succ.
Qed.

Lemma height_unfold (p : Prim) :
  height p = S (fold_right Nat.max 0 (map height (GetChildren p))).
Proof.
  destruct p as [s i cs]; simpl. f_equal.
  induction cs as [|c cs IH]; simpl; [reflexivity | rewrite IH; reflexivity].
Qed.

Lemma height_child (p c : Prim) :
  In c (GetChildren p) -> height c < height p.
Proof.
  rewrite (height_unfold p). generalize (GetChildren p). intros cs.
  induction cs as [|c' cs IH]; [contradiction|].
  cbn [map fold_right]. intros [->|Hc]; [lia|]. specialize (IH Hc). lia.
Qed.

Lemma height_children (n : nat) (q : list Prim) :
  (forall p, In p q -> height p <= S n) ->
  forall c, In c (flat_map GetChildren q) -> height c <= n.
Proof.
  intros Hq c Hc. apply in_flat_map in Hc as (p & Hp & Hc).
  pose proof (height_child _ _ Hc). specialize (Hq p Hp). lia.
Qed.

Lemma height_positive (p : Prim) : 0 < height p.
Proof. rewrite height_unfold. lia. Qed.

(** A walk takes the prims reachable from its queue level by level. *)
Lemma uninstance_loop_levels (n : nat) :
  forall q w, (forall p, In p q -> height p <= n) ->
  uninstance_loop q w = apply_events (uninstance_events (levels n q)) w.
Proof.
  induction n as [|n IH]; intros q w Hq.
  - destruct q as [|p q].
    + simp uninstance_loop. unfold levels. simpl.
      rewrite uninstance_events_nil. reflexivity.
    + pose proof (Hq p (or_introl eq_refl)). pose proof (height_positive p). lia.
  - rewrite <- (app_nil_r q) at 1. rewrite uninstance_loop_app. simpl app.
    rewrite (IH _ _ (height_children n q Hq)).
    rewrite uninstance_events_compose, <- uninstance_events_app, <- levels_succ.
    reflexivity.
Qed.

Lemma forest_children (q : list Prim) :
  Permutation (forest q) (q ++ forest (flat_map GetChildren q)).
Proof.
  induction q as [|c q IH]; [reflexivity|].
  rewrite ApplyNested.forest_cons. simpl. constructor.
  rewrite ApplyNested.forest_app, IH.
  apply Permutation_app_swap_app.
Qed.

Lemma levels_forest (n : nat) :
  forall q, (forall p, In p q -> height p <= n) ->
  Permutation (levels n q) (forest q).
Proof.
  induction n as [|n IH]; intros q Hq.
  - destruct q as [|p q]; [reflexivity|].
    pose proof (Hq p (or_introl eq_refl)). pose proof (height_positive p). lia.
  - rewrite levels_succ, forest_children.
    apply Permutation_app_head. apply IH. exact (height_children n q Hq).
Qed.

Lemma filter_Permutation (f : Prim -> bool) (l l' : list Prim) :
  Permutation l l' -> Permutation (filter f l) (filter f l').
Proof.
  induction 1 as [|x l l' _ IH|x y l|l l' l'' _ IH1 _ IH2]; simpl.
  - reflexivity.
  - destruct (f x); [constructor|]; exact IH.
  - destruct (f x), (f y); try reflexivity. constructor.
  - exact (Permutation_trans IH1 IH2).
Qed.

Lemma breadth_first_levels (p : Prim) : breadth_first p = levels (height p) [p].
Proof.
  unfold breadth_first, levels. apply flat_map_ext. intros k.
  simpl. rewrite app_nil_r. reflexivity.
Qed.

(** The breadth-first listing holds each prim of the subtree once. *)
Lemma breadth_first_subtree (p : Prim) :
  Permutation (breadth_first p) (subtree p).
Proof.
  rewrite breadth_first_levels.
  rewrite (levels_forest (height p) [p]).
  - unfold forest. simpl. rewrite app_nil_r. reflexivity.
  - intros p' [<-|[]]. reflexivity.
Qed.

(** The walk from a single prim, as the calls it makes. *)
Lemma uninstance_walk (prim : Prim) (h : Host) :
  uninstance_loop [prim] {| host := h; trace := [] |}
  = apply_events (uninstance_events (breadth_first prim))
      {| host := h; trace := [] |}.
Proof.
  rewrite (uninstance_loop_levels (height prim) [prim]).
  - rewrite <- breadth_first_levels. reflexivity.
  - intros p [<-|[]]. reflexivity.
Qed.

Lemma filter_none (f : Prim -> bool) (l : list Prim) :
  (forall n, In n l -> f n = false) -> filter f l = [].
Proof.
  induction l as [|p l IH]; intros Hall; [reflexivity|].
  simpl. rewrite (Hall p (or_introl eq_refl)).
  apply IH. intros n Hn. apply Hall. right. exact Hn.
Qed.

(** X9.  [make_uninstanceable] at a valid prim path returns; it calls
    [SetInstanceable(False)] at the instances of the subtree of the prim,
    in breadth-first order, and nothing else acts on the host. *)
Theorem make_uninstanceable_breadth_first
    (current_stage : Prim) (stage : option Prim) (prim_path : string)
    (h : Host) (prim : Prim) :
  GetPrimAtPath (ApplyNested.resolved_stage current_stage stage) prim_path
    = Some prim ->
  exists w,
    make_uninstanceable current_stage stage prim_path h = inr w /\
    trace w = map (fun p => SetInstanceable (GetPath p) false)
                  (filter IsInstance (breadth_first prim)) /\
    host w = fold_left (fun h' e => host_step e h') (trace w) h.
Proof.
  intros Hfind. unfold make_uninstanceable. rewrite Hfind.
  eexists. split; [reflexivity|]. rewrite uninstance_walk.
  split; reflexivity.
Qed.

(** X10.  [make_uninstanceable] at a valid prim path calls
    [SetInstanceable(False)] exactly once at every instance of the subtree
    of the prim, those below other instances included, and makes no other
    call. *)
Theorem make_uninstanceable_every_instance_once
    (current_stage : Prim) (stage : option Prim) (prim_path : string)
    (h : Host) (prim : Prim) :
  GetPrimAtPath (ApplyNested.resolved_stage current_stage stage) prim_path
    = Some prim ->
  exists w,
    make_uninstanceable current_stage stage prim_path h = inr w /\
    Permutation (trace w)
      (map (fun p => SetInstanceable (GetPath p) false)
           (filter IsInstance (subtree prim))).
Proof.
  intros Hfind. unfold make_uninstanceable. rewrite Hfind.
  eexists. split; [reflexivity|]. rewrite uninstance_walk.
  unfold apply_events, uninstance_events. simpl trace.
  apply Permutation_map, filter_Permutation, breadth_first_subtree.
Qed.

(** X11.  On a subtree without instances [make_uninstanceable] makes no
    call and leaves the host as it is. *)
Theorem make_uninstanceable_without_instances
    (current_stage : Prim) (stage : option Prim) (prim_path : string)
    (h : Host) (prim : Prim) :
  GetPrimAtPath (ApplyNested.resolved_stage current_stage stage) prim_path
    = Some prim ->
  (forall n, In n (subtree prim) -> IsInstance n = false) ->
  make_uninstanceable current_stage stage prim_path h
  = inr {| host := h; trace := [] |}.
Proof.
  intros Hfind Hnone. unfold make_uninstanceable. rewrite Hfind.
  rewrite uninstance_walk. unfold uninstance_events.
  rewrite (filter_none IsInstance (breadth_first prim)); [reflexivity|].
  intros n Hn. apply Hnone.
  exact (Permutation_in _ (breadth_first_subtree prim) Hn).
Qed.

End Walk.

(** *** The function on a stage with nested instances *)

(** A shelf that is an instance and holds a box that is one too, next to a
    lamp that is an instance and a plain floor. *)
Definition nested_stage : Prim :=
  mkPrim "/" false
    [mkPrim "/World" false
       [mkPrim "/World/Shelf" true
          [mkPrim "/World/Shelf/Box" true [];
           mkPrim "/World/Shelf/Board" false []];
        mkPrim "/World/Floor" false [];
        mkPrim "/World/Lamp" true []]].

Definition count_step (e : Event) (n : nat) : nat := S n.

Example make_uninstanceable_nested :
  make_uninstanceable count_step nested_stage None "/World" 0
  = inr {| host := 3;
           trace := [SetInstanceable "/World/Shelf" false;
                     SetInstanceable "/World/Lamp" false;
                     SetInstanceable "/World/Shelf/Box" false] |}.
Proof. reflexivity. Qed.

Example make_uninstanceable_invalid :
  make_uninstanceable count_step nested_stage None "/World/Desk" 0
  = inl (ValueError "Prim at path '/World/Desk' is not valid.").
Proof. reflexivity. Qed.

Lemma nested_world_prim :
  GetPrimAtPath (ApplyNested.resolved_stage nested_stage None) "/World"
  = Some (mkPrim "/World" false
            [mkPrim "/World/Shelf" true
               [mkPrim "/World/Shelf/Box" true [];
                mkPrim "/World/Shelf/Board" false []];
             mkPrim "/World/Floor" false [];
             mkPrim "/World/Lamp" true []]).
Proof. reflexivity. Defined.

Lemma make_uninstanceable_breadth_first_witness :
  exists w,
    make_uninstanceable count_step nested_stage None "/World" 0 = inr w /\
    trace w = [SetInstanceable "/World/Shelf" false;
               SetInstanceable "/World/Lamp" false;
               SetInstanceable "/World/Shelf/Box" false] /\
    host w = fold_left (fun h' e => count_step e h') (trace w) 0.
Proof.
  exact (make_uninstanceable_breadth_first count_step nested_stage None
           "/World" 0 _ nested_world_prim).
Defined.

Lemma make_uninstanceable_every_instance_once_witness :
  exists w,
    make_uninstanceable count_step nested_stage None "/World" 0 = inr w /\
    Permutation (trace w)
      [SetInstanceable "/World/Shelf" false;
       SetInstanceable "/World/Shelf/Box" false;
       SetInstanceable "/World/Lamp" false].
Proof.
  exact (make_uninstanceable_every_instance_once count_step nested_stage None
           "/World" 0 _ nested_world_prim).
Defined.

Lemma make_uninstanceable_without_instances_witness :
  make_uninstanceable count_step nested_stage None "/World/Floor" 0
  = inr {| host := 0; trace := [] |}.
Proof.
  apply (make_uninstanceable_without_instances count_step nested_stage None
           "/World/Floor" 0 (mkPrim "/World/Floor" false [])).
  - reflexivity.
  - intros n [<-|[]]. reflexivity.
Defined.

End MakeUninstanceable.

(** ** The order of the walk of [apply_nested] *)

Module ApplyNestedOrder.

Import ApplyNested.

Section Order.

Context {Host : Type}.
Variable func : string -> Host -> bool * Host.
Variable func_name : string.
Variable repr_paths : list string -> string.

(** The calls of a walk in which every call fails. *)
Definition failed_calls (prims : list Prim) : list (string * bool) :=
  map (fun p => (GetPath p, false)) prims.

(** When [func] fails everywhere, a walk calls it on its whole queue, if
    the queue holds no instance, before any of the children it adds. *)
Lemma failing_walk_app (l1 : list Prim) :
  (forall p h, fst (func p h) = false) ->
  (forall p, In p l1 -> IsInstance p = false) ->
  forall l2 h, exists h',
    calls (while_loop func (l1 ++ l2) (start h)) =
    failed_calls l1
    ++ calls (while_loop func (l2 ++ flat_map GetChildren l1) (start h')).
Proof.
  intros Hfail. induction l1 as [|c l1 IH]; intros Hinst l2 h.
  - exists h. simpl. rewrite app_nil_r. reflexivity.
  - simpl app. rewrite ApplyNestedWalk.walk_calls.
    rewrite (Hinst c (or_introl eq_refl)), Hfail.
    rewrite <- app_assoc.
    destruct (IH (fun p Hp => Hinst p (or_intror Hp))
                (l2 ++ GetChildren c) (snd (func (GetPath c) h)))
      as (h' & Hcalls).
    exists h'. rewrite Hcalls. simpl. rewrite <- app_assoc. reflexivity.
Qed.

(** When [func] fails everywhere and no prim reachable from the queue is an
    instance, the walk calls [func] on those prims level by level. *)
Lemma failing_walk_levels (n : nat) :
  (forall p h, fst (func p h) = false) ->
  forall q h,
    (forall p, In p q -> MakeUninstanceable.height p <= n) ->
    (forall p, In p (forest q) -> IsInstance p = false) ->
    calls (while_loop func q (start h))
    = failed_calls (MakeUninstanceable.levels n q).
Proof.
  intros Hfail. induction n as [|n IH]; intros q h Hq Hinst.
  - destruct q as [|p q].
    + rewrite ApplyNestedWalk.walk_nil. reflexivity.
    + pose proof (Hq p (or_introl eq_refl)).
      pose proof (MakeUninstanceable.height_positive p). lia.
  - assert (Hqueue : forall p, In p q -> IsInstance p = false).
    { intros p Hp. apply Hinst. unfold forest. apply in_flat_map.
      exists p. split; [exact Hp | left; reflexivity]. }
    destruct (failing_walk_app q Hfail Hqueue [] h) as (h' & Hcalls).
    rewrite app_nil_r in Hcalls. simpl app in Hcalls. rewrite Hcalls.
    rewrite (IH _ h' (MakeUninstanceable.height_children n q Hq)).
    + rewrite MakeUninstanceable.levels_succ. unfold failed_calls.
      rewrite map_app. reflexivity.
    + intros p Hp. apply Hinst.
      apply (Permutation_in _
               (Permutation_sym (MakeUninstanceable.forest_children q))).
      apply in_or_app. right. exact Hp.
Qed.

(** X8.  The walk is breadth-first: when [func] fails everywhere and the
    subtree of the root holds no instance, [func] is called on the prims of
    the subtree level by level, each level from left to right. *)
Theorem apply_nested_breadth_first
    (current_stage : Prim) (stage : option Prim) (prim_path : string)
    (h : Host) (prim : Prim) :
  (forall p h', fst (func p h') = false) ->
  GetPrimAtPath (resolved_stage current_stage stage) prim_path = Some prim ->
  (forall n, In n (subtree prim) -> IsInstance n = false) ->
  exists out,
    wrapper func func_name repr_paths current_stage stage prim_path h
      = inr out /\
    map fst (calls (walked out))
      = map GetPath (MakeUninstanceable.breadth_first prim).
Proof.
  intros Hfail Hfind Hinst. unfold wrapper. rewrite Hfind.
  eexists. split; [reflexivity|]. simpl walked.
  rewrite (failing_walk_levels (MakeUninstanceable.height prim) Hfail [prim]).
  - rewrite <- MakeUninstanceable.breadth_first_levels.
    unfold failed_calls. rewrite map_map. reflexivity.
  - intros p [<-|[]]. reflexivity.
  - intros p Hp. apply Hinst. unfold forest in Hp. simpl in Hp.
    rewrite app_nil_r in Hp. exact Hp.
Qed.

End Order.

(** A robot with a gripper, without instances. *)
Definition robot_stage : Prim :=
  mkPrim "/" false
    [mkPrim "/Robot" false
       [mkPrim "/Robot/arm" false
          [mkPrim "/Robot/arm/gripper" false []];
        mkPrim "/Robot/base" false
          [mkPrim "/Robot/base/wheel" false []]]].

Lemma apply_nested_breadth_first_witness :
  exists out,
    wrapper failing_func "f" example_repr robot_stage None "/Robot" 0
      = inr out /\
    map fst (calls (walked out))
      = ["/Robot"; "/Robot/arm"; "/Robot/base"; "/Robot/arm/gripper";
         "/Robot/base/wheel"].
Proof.
  apply (apply_nested_breadth_first failing_func "f" example_repr
           robot_stage None "/Robot" 0
           (mkPrim "/Robot" false
              [mkPrim "/Robot/arm" false
                 [mkPrim "/Robot/arm/gripper" false []];
               mkPrim "/Robot/base" false
                 [mkPrim "/Robot/base/wheel" false []]])).
  - reflexivity.
  - reflexivity.
  - intros n Hn. simpl in Hn.
    repeat (destruct Hn as [<-|Hn]; [reflexivity|]). contradiction.
Defined.

End ApplyNestedOrder.

(** ** More on the string operations *)

Module PyStrMore.

Import PyStr.

Lemma append_assoc (a b c : string) :
  ((a ++ b) ++ c)%string = (a ++ b ++ c)%string.
Proof. induction a as [|x a IH]; simpl; [reflexivity | rewrite IH; reflexivity]. Qed.

Lemma append_nil_r (a : string) : (a ++ "")%string = a.
Proof. induction a as [|x a IH]; simpl; [reflexivity | rewrite IH; reflexivity]. Qed.

Lemma replace_space_app (a b : string) :
  replace_space (a ++ b) = (replace_space a ++ replace_space b)%string.
Proof. induction a as [|x a IH]; simpl; [reflexivity | rewrite IH; reflexivity]. Qed.

Lemma has_char_app (c : ascii) (a b : string) :
  has_char c (a ++ b) = has_char c a || has_char c b.
Proof.
  induction a as [|x a IH]; simpl; [reflexivity|].
  rewrite IH, orb_assoc. reflexivity.
Qed.

Lemma rsplit_slash_join (a b : string) :
  has_char "/"%char b = false ->
  rsplit_slash (a ++ "/" ++ b) = Some (a, b).
Proof.
  intros Hb. induction a as [|x a IH]; simpl.
  - apply PyStrFacts.rsplit_slash_none in Hb. rewrite Hb. reflexivity.
  - simpl in IH. rewrite IH. reflexivity.
Qed.

(** X12.  [rsplit("/", 1)] and the join with a slash are inverse of each
    other: a path that splits into a parent and a leaf is the parent, a
    slash and the leaf, and the leaf has no slash; a parent joined to a leaf
    without a slash splits back into the two; a path splits if and only if
    it has a slash. *)
Theorem rsplit_slash_round_trip (s a b : string) :
  (rsplit_slash s = Some (a, b) ->
   s = (a ++ "/" ++ b)%string /\ has_char "/"%char b = false) /\
  (has_char "/"%char b = false ->
   rsplit_slash (a ++ "/" ++ b) = Some (a, b)) /\
  (rsplit_slash s = None <-> has_char "/"%char s = false).
Proof.
  split; [apply PyStrFacts.rsplit_slash_some|].
  split; [apply rsplit_slash_join | apply PyStrFacts.rsplit_slash_none].
Qed.

Lemma skip_class_app (body rest : string) :
  all_in_class body = true ->
  skip_class (body ++ rest) = skip_class rest.
Proof.
  induction body as [|c body IH]; simpl; [reflexivity|].
  intros H. apply andb_prop in H as [Hc Hbody]. rewrite Hc. exact (IH Hbody).
Qed.

Lemma skip_class_split (s : string) :
  exists body, all_in_class body = true /\
               s = (body ++ skip_class s)%string.
Proof.
  induction s as [|c s (body & Hbody & Hs)]; simpl.
  - exists EmptyString. auto.
  - destruct (in_class c) eqn:Hc.
    + exists (String c body). simpl. rewrite Hc, Hbody.
      split; [reflexivity | rewrite <- Hs; reflexivity].
    + exists EmptyString. auto.
Qed.

Lemma at_dollar_cases (rest : string) :
  at_dollar rest = true <->
  rest = EmptyString \/ rest = String newline EmptyString.
Proof.
  destruct rest as [|c [|c' rest]]; simpl.
  - split; auto.
  - rewrite Ascii.eqb_eq. split.
    + intros ->. auto.
    + intros [H|H]; [discriminate | injection H; auto].
  - split; [discriminate | intros [H|H]; discriminate].
Qed.

(** X13.  What [re.match(r"^[a-zA-Z0-9/_]+$", s)] accepts: the strings made
    of one or more characters of the class, and those strings followed by a
    single newline; nothing else. *)
Theorem re_match_prim_path_accepts (s : string) :
  re_match_prim_path s = true <->
  exists body,
    body <> EmptyString /\ all_in_class body = true /\
    (s = body \/ s = (body ++ String newline EmptyString)%string).
Proof.
  split.
  - destruct s as [|c s]; [discriminate|]. simpl. intros H.
    apply andb_prop in H as [Hc H].
    destruct (skip_class_split s) as (body & Hbody & Hs).
    apply at_dollar_cases in H.
    exists (String c body). split; [discriminate|]. simpl.
    rewrite Hc, Hbody. split; [reflexivity|].
    destruct H as [H|H]; rewrite H in Hs.
    + left. rewrite append_nil_r in Hs. rewrite Hs. reflexivity.
    + right. rewrite Hs. reflexivity.
  - intros (body & Hne & Hbody & [->| ->]).
    + apply PyStrFacts.re_match_all_in_class; assumption.
    + destruct body as [|c body]; [congruence|]. simpl in *.
      apply andb_prop in Hbody as [Hc Hbody]. rewrite Hc.
      rewrite (skip_class_app _ _ Hbody). reflexivity.
Qed.

End PyStrMore.

(** ** More on [clone] *)

Module CloneCalls.

Import Clone.

(** X14.  The instance name does not tell pairs apart that differ in where
    an underscore separates the components, or in spaces against
    underscores: such pairs are applied to the same semantics instance. *)
Theorem instance_name_collisions (a b c : string) :
  instance_name (a ++ "_" ++ b) c = instance_name a (b ++ "_" ++ c) /\
  instance_name (PyStr.replace_space a) (PyStr.replace_space b)
    = instance_name a b /\
  String.length (instance_name a b) = String.length a + 1 + String.length b.
Proof.
  unfold instance_name. repeat split.
  - rewrite !PyStrMore.replace_space_app. simpl.
    rewrite PyStrMore.append_assoc. reflexivity.
  - rewrite !(PyStrFacts.replace_space_unchanged (PyStr.replace_space _))
      by apply PyStrFacts.replace_space_no_space.
    reflexivity.
  - assert (Hlen : forall x y, String.length (x ++ y)
                               = String.length x + String.length y).
    { intros x y. induction x as [|ch x IH]; simpl; [reflexivity|].
      rewrite IH. reflexivity. }
    rewrite !Hlen, !PyStrFacts.replace_space_length. simpl. lia.
Qed.

Section Calls.

Context {Host Handle : Type}.
Variable func : string -> SpawnerCfg -> Host -> Handle * Host.
Variable find_matching_prim_paths : string -> Host -> list string.
Variable host_step : @Event Handle -> Host -> Host.
Variable isaac_major_version : Z.

Local Abbreviation run' :=
  (run func find_matching_prim_paths host_step isaac_major_version).
Local Abbreviation candidates' :=
  (candidates (Handle := Handle) find_matching_prim_paths).
Local Abbreviation configured' := (configured func host_step).

(** [ActivateContactSensors] calls. *)
Definition is_activation (e : @Event Handle) : bool :=
  match e with ActivateContactSensors _ _ => true | _ => false end.

Lemma run_spawns (prim_path : string) (cfg : SpawnerCfg) (h : Host)
    (first : string) (others : list string) :
  candidates' prim_path h = inr (first :: others) ->
  filter is_spawn (trace (fst (run' prim_path cfg h))) = [Spawn first cfg].
Proof.
  intros Hres. rewrite (run_events _ _ _ _ _ cfg _ _ _ Hres).
  destruct (activation_paths _ first cfg _) as [paths|]; simpl fst.
  - rewrite trace_apply_events, !filter_app, configured_spawns.
    rewrite (filter_configuration _ _ (@configuration_not_spawn Handle)
               (activation_events_configuration paths)).
    rewrite clone_events_spawns. reflexivity.
  - apply configured_spawns.
Qed.

Lemma run_clones (prim_path : string) (cfg : SpawnerCfg) (h : Host)
    (first : string) (others : list string) :
  candidates' prim_path h = inr (first :: others) ->
  filter is_clone (trace (fst (run' prim_path cfg h))) =
  match activation_paths find_matching_prim_paths first cfg
          (host (configured' first cfg h)) with
  | Some _ => clone_events isaac_major_version first others cfg
  | None => []
  end.
Proof.
  intros Hres. rewrite (run_events _ _ _ _ _ cfg _ _ _ Hres).
  destruct (activation_paths _ first cfg _) as [paths|]; simpl fst.
  - rewrite trace_apply_events, !filter_app, configured_clones.
    rewrite (filter_configuration _ _ (@configuration_not_clone Handle)
               (activation_events_configuration paths)).
    rewrite clone_events_clones. reflexivity.
  - apply configured_clones.
Qed.

(** X15.  A prim path without a slash cannot be split into a parent and a
    leaf: the call raises the [ValueError] of the unpacking, and makes no
    call into the host. *)
Theorem clone_without_slash_raises
    (prim_path : string) (cfg : SpawnerCfg) (h : Host) :
  PyStr.has_char "/"%char prim_path = false ->
  run' prim_path cfg h =
  ({| host := h; trace := [] |},
   inl (ValueError "not enough values to unpack (expected 2, got 1)")).
Proof.
  intros Hslash. apply run_unresolved. unfold candidates, resolve.
  apply PyStrFacts.rsplit_slash_none in Hslash. rewrite Hslash. reflexivity.
Qed.

(** X16.  When the part of the prim path before its last slash is empty or
    has only characters of the class, the stage is not consulted: the one
    path resolved is the prim path itself, the decorated function is called
    there, once, and the cloner is not called. *)
Theorem clone_literal_spawns_at_prim_path
    (prim_path : string) (cfg : SpawnerCfg) (h : Host)
    (root_path asset_path : string) :
  PyStr.rsplit_slash prim_path = Some (root_path, asset_path) ->
  PyStr.has_char_outside_class root_path = false ->
  candidates' prim_path h = inr [prim_path] /\
  filter is_spawn (trace (fst (run' prim_path cfg h))) = [Spawn prim_path cfg] /\
  filter is_clone (trace (fst (run' prim_path cfg h))) = [].
Proof.
  intros Hsplit Hclass.
  assert (Hres : candidates' prim_path h = inr [prim_path]).
  { rewrite (candidates_literal _ _ _ _ h Hsplit
               (proj2 (parent_classification root_path) Hclass)).
    destruct (PyStrFacts.rsplit_slash_some _ _ _ Hsplit) as [<- _].
    reflexivity. }
  split; [exact Hres|]. split.
  - exact (run_spawns _ cfg _ _ _ Hres).
  - rewrite (run_clones _ cfg _ _ _ Hres).
    destruct (activation_paths _ _ _ _); reflexivity.
Qed.

(** X17.  In a call that returns, the call of the decorated function is the
    first call into the host and, with more than one resolved path, the
    call of the cloner is the last: the visibility, the semantic tags and
    the contact sensors are set on the source prim before it is cloned. *)
Theorem clone_configures_before_cloning
    (prim_path : string) (cfg : SpawnerCfg) (h : Host)
    (first : string) (others : list string) (prim : Handle) :
  candidates' prim_path h = inr (first :: others) ->
  snd (run' prim_path cfg h) = inr prim ->
  exists configuration,
    forallb is_configuration configuration = true /\
    trace (fst (run' prim_path cfg h)) =
      [Spawn first cfg] ++ configuration
      ++ clone_events isaac_major_version first others cfg.
Proof.
  intros Hres. rewrite (run_events _ _ _ _ _ cfg _ _ _ Hres).
  destruct (activation_paths _ first cfg _) as [paths|]; [|discriminate].
  intros _. simpl fst. rewrite trace_apply_events, configured_trace.
  exists ((visibility_events (fst (func first cfg h)) cfg
           ++ semantics_events (fst (func first cfg h)) cfg)
          ++ activation_events paths).
  split.
  - rewrite forallb_app, configuration_events,
      activation_events_configuration. reflexivity.
  - simpl. rewrite <- !app_assoc. reflexivity.
Qed.

(** X18.  The contact sensors of a call whose prim path resolves: with the
    selector [True], one activation, at the first resolved path; with
    [False] or without selector, none; with a string, one activation for
    each path that matches the first resolved path, a slash and the string
    on the stage as the spawn and the configuration left it, in the order
    of the matches.  The threshold is 1.0 each time. *)
Theorem clone_contact_sensor_activations
    (prim_path : string) (cfg : SpawnerCfg) (h : Host)
    (first : string) (others : list string) :
  candidates' prim_path h = inr (first :: others) ->
  filter is_activation (trace (fst (run' prim_path cfg h))) =
  map (fun activate_path => ActivateContactSensors activate_path one_float)
    match activate_contact_sensors cfg with
    | Some (PyBool true) => [first]
    | Some (PyStr pattern) =>
        find_matching_prim_paths (first ++ "/" ++ pattern)%string
          (host (configured' first cfg h))
    | _ => []
    end.
Proof.
  intros Hres. rewrite (run_events _ _ _ _ _ cfg _ _ _ Hres).
  assert (Hconfigured :
            filter is_activation (trace (configured' first cfg h)) = []).
  { rewrite configured_trace. simpl. rewrite filter_app.
    unfold visibility_events, semantics_events.
    destruct (visible cfg); simpl;
      (destruct (semantic_tags cfg) as [[tags|]|]; [|reflexivity..]);
      induction tags as [|tag tags IH]; simpl; auto. }
  assert (Hactivation : forall paths,
            filter is_activation (activation_events paths)
            = map (fun p => ActivateContactSensors p one_float) paths).
  { induction paths as [|p paths IH]; simpl; [reflexivity|].
    rewrite IH. reflexivity. }
  assert (Hclone : filter is_activation
                     (clone_events isaac_major_version first others cfg) = []).
  { destruct others; reflexivity. }
  unfold activation_paths.
  destruct (activate_contact_sensors cfg) as [[| [|] | | | | |]|];
    cbn [fst]; rewrite ?trace_apply_events, ?filter_app, ?Hactivation;
    rewrite ?Hconfigured, ?Hclone, ?app_nil_r; reflexivity.
Qed.

(** X19.  When the contact-sensor selector has an unsupported type and the
    prim path resolves, the [ValueError] leaves behind what was done before
    it: the prim is spawned, its visibility is set and its semantic tags
    are applied; no contact sensor is activated and nothing is cloned. *)
Theorem clone_unsupported_selector_keeps_effects
    (prim_path : string) (cfg : SpawnerCfg) (h : Host)
    (first : string) (others : list string) :
  candidates' prim_path h = inr (first :: others) ->
  supported_selector cfg = false ->
  run' prim_path cfg h = (configured' first cfg h, inl (ValueError "")) /\
  trace (configured' first cfg h) =
    Spawn first cfg ::
      visibility_events (fst (func first cfg h)) cfg
      ++ semantics_events (fst (func first cfg h)) cfg.
Proof.
  intros Hres Hunsup. rewrite (run_events _ _ _ _ _ cfg _ _ _ Hres).
  rewrite (activation_paths_unsupported _ first cfg _ Hunsup).
  split; [reflexivity | apply configured_trace].
Qed.

End Calls.

Lemma three_tables_candidates :
  candidates (Handle := string) example_find "/World/Table_[0-9]/Bottle" 0
  = inr ("/World/Table_0/Bottle"
         :: ["/World/Table_1/Bottle"; "/World/Table_2/Bottle"]).
Proof. reflexivity. Defined.

Lemma clone_without_slash_raises_witness :
  example_run 2023 "Bottle" example_cfg =
  ({| host := 0; trace := [] |},
   inl (ValueError "not enough values to unpack (expected 2, got 1)")).
Proof.
  apply (clone_without_slash_raises example_spawn example_find example_step
           2023 "Bottle" example_cfg 0).
  reflexivity.
Defined.

Lemma clone_literal_spawns_at_prim_path_witness :
  candidates (Handle := string) example_find "/World/Bottle" 0
    = inr ["/World/Bottle"] /\
  filter is_spawn (trace (fst (example_run 2023 "/World/Bottle" example_cfg)))
    = [Spawn "/World/Bottle" example_cfg] /\
  filter is_clone (trace (fst (example_run 2023 "/World/Bottle" example_cfg)))
    = [].
Proof.
  apply (clone_literal_spawns_at_prim_path example_spawn example_find
           example_step 2023 "/World/Bottle" example_cfg 0 "/World" "Bottle");
    reflexivity.
Defined.

Lemma clone_configures_before_cloning_witness :
  exists configuration,
    forallb is_configuration configuration = true /\
    trace (fst (example_run 2023 "/World/Table_[0-9]/Bottle" example_cfg)) =
      [Spawn "/World/Table_0/Bottle" example_cfg] ++ configuration
      ++ [ClonerClone "/World/Table_0/Bottle"
            ["/World/Table_1/Bottle"; "/World/Table_2/Bottle"] false
            (Some true)].
Proof.
  apply (clone_configures_before_cloning example_spawn example_find
           example_step 2023 "/World/Table_[0-9]/Bottle" example_cfg 0
           "/World/Table_0/Bottle"
           ["/World/Table_1/Bottle"; "/World/Table_2/Bottle"]
           "/World/Table_0/Bottle").
  - exact three_tables_candidates.
  - reflexivity.
Defined.

Lemma clone_contact_sensor_activations_witness :
  filter is_activation
    (trace (fst (example_run 2023 "/World/Table_[0-9]/Bottle" example_cfg)))
  = [ActivateContactSensors "/World/Table_0/Bottle" one_float].
Proof.
  apply (clone_contact_sensor_activations example_spawn example_find
           example_step 2023 "/World/Table_[0-9]/Bottle" example_cfg 0
           "/World/Table_0/Bottle"
           ["/World/Table_1/Bottle"; "/World/Table_2/Bottle"]).
  exact three_tables_candidates.
Defined.

Lemma clone_unsupported_selector_keeps_effects_witness :
  example_run 2023 "/World/Table_[0-9]/Bottle" integer_selector_cfg
    = (configured example_spawn example_step "/World/Table_0/Bottle"
         integer_selector_cfg 0,
       inl (ValueError "")) /\
  trace (configured example_spawn example_step "/World/Table_0/Bottle"
           integer_selector_cfg 0) =
    [Spawn "/World/Table_0/Bottle" integer_selector_cfg;
     SetPrimVisibility "/World/Table_0/Bottle" true;
     SemanticsApply "/World/Table_0/Bottle" "object_type_soda_can";
     CreateSemanticTypeAttr "/World/Table_0/Bottle" "object_type_soda_can";
     CreateSemanticDataAttr "/World/Table_0/Bottle" "object_type_soda_can";
     SetSemanticType "/World/Table_0/Bottle" "object_type_soda_can"
       "object type";
     SetSemanticData "/World/Table_0/Bottle" "object_type_soda_can"
       "soda can"].
Proof.
  apply (clone_unsupported_selector_keeps_effects example_spawn example_find
           example_step 2023 "/World/Table_[0-9]/Bottle"
           integer_selector_cfg 0 "/World/Table_0/Bottle"
           ["/World/Table_1/Bottle"; "/World/Table_2/Bottle"]).
  - exact three_tables_candidates.
  - reflexivity.
Defined.

End CloneCalls.

(** ** More on the attribute setters *)

Module SettersCalls.

Import Setters.

Section Calls.

Context {Host Stage : Type}.
Variable to_camel_case : string -> string -> string.
Variable py_str : PyVal -> string.
Variable host_step : @Event Stage -> Host -> Host.

Local Abbreviation schema_setter :=
  (safe_set_attribute_on_usd_schema to_camel_case host_step).
Local Abbreviation prim_setter :=
  (safe_set_attribute_on_usd_prim to_camel_case py_str host_step).

(** The world after one call into the host. *)
Definition after (e : @Event Stage) (w : @World Host Stage) : World :=
  {| host := host_step e (host w); trace := trace w ++ [e] |}.

(** The name the schema setter looks up, and the one the prim setter
    writes to. *)
Definition schema_attr_name (name : string) (camel_case : bool) : string :=
  if camel_case then to_camel_case name "CC" else name.

Definition prim_attr_name (attr_name : string) (camel_case : bool) : string :=
  if camel_case then to_camel_case attr_name "cC" else attr_name.

(** X20.  With a value other than [None], the schema setter sets the
    attribute, by one call, when the schema has the creator
    [Create<Name>Attr], and returns; when the schema has no such member it
    sets nothing: it logs an error and raises [TypeError] with the text it
    logged. *)
Theorem schema_setter_sets_existing_attribute_only
    (schema_api : SchemaAPI) (name : string) (value : PyVal)
    (camel_case : bool) (w : World) :
  is_none value = false ->
  let creator :=
    ("Create" ++ schema_attr_name name camel_case ++ "Attr")%string in
  let msg := ("Attribute '" ++ schema_attr_name name camel_case
              ++ "' does not exist on prim '" ++ schema_path schema_api
              ++ "'.")%string in
  (In creator (schema_members schema_api) ->
   schema_setter schema_api name value camel_case w
   = (after (AttrSet (schema_path schema_api) creator value) w, inr tt)) /\
  (~ In creator (schema_members schema_api) ->
   schema_setter schema_api name value camel_case w
   = (after (LogError msg) w, inl (TypeError msg))).
Proof.
  intros Hval creator msg.
  unfold safe_set_attribute_on_usd_schema. rewrite Hval.
  fold (schema_attr_name name camel_case). fold creator. fold msg.
  unfold has_member.
  destruct (existsb (String.eqb creator) (schema_members schema_api))
    eqn:Hmember.
  - split; [reflexivity|]. intros Hno. exfalso. apply Hno.
    apply existsb_exists in Hmember as (m & Hm & Heq).
    apply String.eqb_eq in Heq. subst m. exact Hm.
  - split; [|reflexivity]. intros Hin. exfalso.
    assert (Hex : existsb (String.eqb creator) (schema_members schema_api)
                  = true).
    { apply existsb_exists. exists creator. split; [exact Hin|].
      apply String.eqb_refl. }
    congruence.
Qed.

(** X21.  The prim setter rejects a tuple or list that holds no float, and
    one whose length is neither 2 nor 3, and a string: it raises
    [NotImplementedError] and makes no call into the host. *)
Theorem prim_setter_rejects
    (prim : UsdPrim) (attr_name : string) (value : PyVal)
    (camel_case : bool) (w : World) :
  (exists items,
     (value = PyTuple items \/ value = PyList items) /\
     (existsb is_float items = false \/
      (List.length items <> 2 /\ List.length items <> 3)))
  \/ (exists s, value = PyStr s) ->
  prim_setter prim attr_name value camel_case w
  = (w, inl (NotImplementedError
               ("Cannot set attribute '" ++ prim_attr_name attr_name camel_case
                ++ "' with value '" ++ py_str value
                ++ "'. Please modify the code to support this type.")%string)).
Proof.
  intros Hvalue.
  assert (Hreject : is_none value = false /\ resolve_sdf_type value = None).
  { destruct Hvalue as [(items & [-> | ->] & Hitems)|(s & ->)];
      try (split; reflexivity);
      (split; [reflexivity|]); simpl;
      (destruct Hitems as [Hfloat|[H2 H3]];
       [rewrite Hfloat, !andb_false_r; reflexivity|]);
      apply Nat.eqb_neq in H2, H3; rewrite H2, H3; reflexivity. }
  destruct Hreject as [Hnone Hnotype].
  unfold safe_set_attribute_on_usd_prim. rewrite Hnone, Hnotype. reflexivity.
Qed.

(** X22.  The prim setter accepts a tuple or list of length 3 or 2 as soon
    as one of its elements is a float, whatever the other elements are: it
    makes the one call that writes the value to ["<prim path>.<name>"], with
    the type Float3 or Float2 to create the attribute with. *)
Theorem prim_setter_accepts_sequence_with_a_float
    (prim : UsdPrim) (attr_name : string) (items : list PyVal)
    (value : PyVal) (camel_case : bool) (w : World) :
  value = PyTuple items \/ value = PyList items ->
  existsb is_float items = true ->
  List.length items = 3 \/ List.length items = 2 ->
  prim_setter prim attr_name value camel_case w
  = (after (ChangePropertyCommand
              (prim_path prim ++ "." ++ prim_attr_name attr_name camel_case)
              value
              (if List.length items =? 3 then SdfFloat3 else SdfFloat2)
              (prim_stage prim)) w,
     inr tt).
Proof.
  intros Hvalue Hfloat Hlen.
  assert (Htype : is_none value = false /\
                  resolve_sdf_type value
                  = Some (if List.length items =? 3 then SdfFloat3
                          else SdfFloat2)).
  { destruct Hvalue as [-> | ->]; (split; [reflexivity|]); simpl;
      rewrite Hfloat; destruct Hlen as [-> | ->]; reflexivity. }
  destruct Htype as [Hnone Htype].
  unfold safe_set_attribute_on_usd_prim. rewrite Hnone, Htype. reflexivity.
Qed.

End Calls.

Lemma schema_setter_sets_existing_attribute_only_witness :
  (In "CreateRigidBodyEnabledAttr" (schema_members example_schema) ->
   safe_set_attribute_on_usd_schema example_camel count_step example_schema
     "rigid_body_enabled" (PyBool true) true example_world
   = (after count_step
        (AttrSet "/World/Robot" "CreateRigidBodyEnabledAttr" (PyBool true))
        example_world,
      inr tt)) /\
  (~ In "CreateRigidBodyEnabledAttr" (schema_members example_schema) ->
   safe_set_attribute_on_usd_schema example_camel count_step example_schema
     "rigid_body_enabled" (PyBool true) true example_world
   = (after count_step
        (LogError
           "Attribute 'RigidBodyEnabled' does not exist on prim '/World/Robot'.")
        example_world,
      inl (TypeError
             "Attribute 'RigidBodyEnabled' does not exist on prim '/World/Robot'."))).
Proof.
  apply (schema_setter_sets_existing_attribute_only example_camel count_step
           example_schema "rigid_body_enabled" (PyBool true) true
           example_world).
  reflexivity.
Defined.

Lemma prim_setter_rejects_witness :
  safe_set_attribute_on_usd_prim example_camel example_str count_step
    example_prim "diffuse_tint" (PyTuple [PyInt 1; PyInt 0; PyInt 0]) false
    example_world
  = (example_world,
     inl (NotImplementedError
            ("Cannot set attribute '" ++ "diffuse_tint"
             ++ "' with value '" ++ "?"
             ++ "'. Please modify the code to support this type.")%string)).
Proof.
  apply (prim_setter_rejects example_camel example_str count_step
           example_prim "diffuse_tint" (PyTuple [PyInt 1; PyInt 0; PyInt 0])
           false example_world).
  left. exists [PyInt 1; PyInt 0; PyInt 0]. split; [left|left]; reflexivity.
Defined.

Lemma prim_setter_accepts_sequence_with_a_float_witness :
  safe_set_attribute_on_usd_prim example_camel example_str count_step
    example_prim "uv" (PyList [PyStr "u"; PyFloat 0]) false example_world
  = (after count_step
       (ChangePropertyCommand "/World/Looks/Shader.uv"
          (PyList [PyStr "u"; PyFloat 0]) SdfFloat2 tt)
       example_world,
     inr tt).
Proof.
  apply (prim_setter_accepts_sequence_with_a_float example_camel example_str
           count_step example_prim "uv" [PyStr "u"; PyFloat 0]
           (PyList [PyStr "u"; PyFloat 0]) false example_world).
  - right. reflexivity.
  - reflexivity.
  - right. reflexivity.
Defined.

End SettersCalls.

(** ** Material bindings *)

Module Materials.

(** The schemas and the prim type [bind_physics_material] asks about. *)
Inductive Schema : Type :=
| PhysxSceneAPI
| CollisionAPI
| PhysxDeformableBodyAPI
| PhysxParticleSystem
| MaterialBindingAPI.

(** The calls the two functions make. *)
Inductive Event : Type :=
| BindMaterialCommand (prim_path material_path strength : string)
| LogVerbose (msg : string)
| ApplyMaterialBindingAPI (prim_path : string)
| Bind (prim_path material_path binding_strength material_purpose : string).

Section Functions.

(** The state of the host. *)
Context {Host : Type}.

(** [prim.HasAPI(schema)], and [prim.IsA(schema)] for the particle system,
    of the prim at a path. *)
Variable has_schema : string -> Schema -> Host -> bool.

(** The success flag [omni.kit.commands.execute] returns for a command. *)
Variable command_success : Event -> Host -> bool.

(** What a call that acts on the stage does to the host. *)
Variable host_step : Event -> Host -> Host.

Record World : Type := mkWorld {
  host : Host;
  trace : list Event
}.

(** A call that acts on the stage. *)
Definition call (e : Event) : M World unit :=
  fun w => ({| host := host_step e (host w); trace := trace w ++ [e] |}, inr tt).

(** A message given to [carb]: it is recorded and leaves the host alone. *)
Definition log (e : Event) : M World unit :=
  fun w => ({| host := host w; trace := trace w ++ [e] |}, inr tt).

(** [omni.kit.commands.execute(...)], which returns the success flag. *)
Definition execute (e : Event) : M World bool :=
  fun w => ({| host := host_step e (host w); trace := trace w ++ [e] |},
            inr (command_success e (host w))).

(** [stage.GetPrimAtPath(path).IsValid()]. *)
Definition is_valid (stage : Prim) (path : string) : bool :=
  match GetPrimAtPath stage path with Some _ => true | None => false end.

(** The function [bind_visual_material] decorates, lines 294-342.  [stage]
    is the stage after the [None] default is resolved. *)
Definition bind_visual_material (stage : Prim) (prim_path material_path : string)
    (stronger_than_descendants : bool) : M World bool :=
  if negb (is_valid stage prim_path)
  then raise (ValueError
         ("Target prim '" ++ material_path ++ "' does not exist.")%string)
  else if negb (is_valid stage material_path)
  then raise (ValueError
         ("Visual material '" ++ material_path ++ "' does not exist.")%string)
  else
    let binding_strength :=
      if stronger_than_descendants then "strongerThanDescendants"
      else "weakerThanDescendants" in
    execute (BindMaterialCommand prim_path material_path binding_strength).

(** The function [bind_physics_material] decorates, lines 346-409. *)
Definition bind_physics_material (stage : Prim)
    (prim_path material_path : string) (stronger_than_descendants : bool)
    : M World bool :=
  if negb (is_valid stage prim_path)
  then raise (ValueError
         ("Target prim '" ++ material_path ++ "' does not exist.")%string)
  else if negb (is_valid stage material_path)
  then raise (ValueError
         ("Physics material '" ++ material_path ++ "' does not exist.")%string)
  else fun w =>
    let has_physics_scene_api := has_schema prim_path PhysxSceneAPI (host w) in
    let has_collider := has_schema prim_path CollisionAPI (host w) in
    let has_deformable_body :=
      has_schema prim_path PhysxDeformableBodyAPI (host w) in
    let has_particle_system :=
      has_schema prim_path PhysxParticleSystem (host w) in
    if negb (has_physics_scene_api || has_collider || has_deformable_body
             || has_particle_system)
    then
      (log (LogVerbose
              ("Cannot apply physics material '" ++ material_path
               ++ "' on prim '" ++ prim_path ++ "'. It is neither a"
               ++ " PhysX scene, collider, a deformable body, nor a particle system."
              )%string) ;;;
       ret false) w
    else
      ((if has_schema prim_path MaterialBindingAPI (host w) then ret tt
        else call (ApplyMaterialBindingAPI prim_path)) ;;;
       let binding_strength :=
         if stronger_than_descendants then "strongerThanDescendants"
         else "weakerThanDescendants" in
       call (Bind prim_path material_path binding_strength "physics") ;;;
       ret true) w.

(** A prim on which a physics material can be bound. *)
Definition physics_enabled (prim_path : string) (h : Host) : bool :=
  has_schema prim_path PhysxSceneAPI h
  || has_schema prim_path CollisionAPI h
  || has_schema prim_path PhysxDeformableBodyAPI h
  || has_schema prim_path PhysxParticleSystem h.

(** Calls that write to the stage. *)
Definition writes_stage (e : Event) : bool :=
  match e with LogVerbose _ => false | _ => true end.

(** X23.  [bind_physics_material] returns true exactly when the prim and
    the material exist and the prim is a physics scene, a collider, a
    deformable body or a particle system: it then binds the material once,
    for the purpose "physics", after applying the binding API if the prim
    lacks it.  In every other case it writes nothing to the stage and leaves
    the host as it is. *)
Theorem bind_physics_material_writes_iff_true
    (stage : Prim) (prim_path material_path : string)
    (stronger_than_descendants : bool) (w : World) :
  let bindable :=
    is_valid stage prim_path && is_valid stage material_path
    && physics_enabled prim_path (host w) in
  let result :=
    bind_physics_material stage prim_path material_path
      stronger_than_descendants w in
  (bindable = true ->
   snd result = inr true /\
   exists strength,
     trace (fst result) =
       trace w
       ++ (if has_schema prim_path MaterialBindingAPI (host w) then []
           else [ApplyMaterialBindingAPI prim_path])
       ++ [Bind prim_path material_path strength "physics"]) /\
  (bindable = false ->
   snd result <> inr true /\
   host (fst result) = host w /\
   filter writes_stage (trace (fst result)) = filter writes_stage (trace w)).
Proof.
  intros bindable result. subst bindable result.
  unfold bind_physics_material, physics_enabled.
  destruct (is_valid stage prim_path); simpl;
    [destruct (is_valid stage material_path); simpl|];
    try (split; [discriminate|]; intros _; unfold raise; simpl;
         split; [discriminate|]; split; reflexivity).
  destruct (has_schema prim_path PhysxSceneAPI (host w)
            || has_schema prim_path CollisionAPI (host w)
            || has_schema prim_path PhysxDeformableBodyAPI (host w)
            || has_schema prim_path PhysxParticleSystem (host w)); simpl.
  - split; [|discriminate]. intros _.
    unfold bind, call, ret; simpl.
    destruct (has_schema prim_path MaterialBindingAPI (host w)); simpl;
      (split; [reflexivity|]); eexists;
      rewrite <- ?app_assoc; reflexivity.
  - split; [discriminate|]. intros _.
    unfold bind, log, ret; simpl.
    split; [discriminate|]. split; [reflexivity|].
    rewrite filter_app. simpl. apply app_nil_r.
Qed.

(** X24.  [bind_visual_material] executes the bind command, once, exactly
    when the prim and the material exist, and returns the success flag of
    the command.  Otherwise it raises [ValueError] before any call; the
    target prim is checked first, and the text of either error names the
    material path. *)
Theorem bind_visual_material_validates_first
    (stage : Prim) (prim_path material_path : string)
    (stronger_than_descendants : bool) (w : World) :
  let result :=
    bind_visual_material stage prim_path material_path
      stronger_than_descendants w in
  (is_valid stage prim_path = false ->
   result = (w, inl (ValueError ("Target prim '" ++ material_path
                                 ++ "' does not exist.")%string))) /\
  (is_valid stage prim_path = true ->
   is_valid stage material_path = false ->
   result = (w, inl (ValueError ("Visual material '" ++ material_path
                                 ++ "' does not exist.")%string))) /\
  (is_valid stage prim_path = true ->
   is_valid stage material_path = true ->
   exists strength,
     let command := BindMaterialCommand prim_path material_path strength in
     trace (fst result) = trace w ++ [command] /\
     snd result = inr (command_success command (host w)) /\
     (strength = if stronger_than_descendants then "strongerThanDescendants"
                 else "weakerThanDescendants")).
Proof.
  intros result. subst result. unfold bind_visual_material.
  split; [|split].
  - intros ->. reflexivity.
  - intros -> ->. reflexivity.
  - intros -> ->. simpl. eexists. repeat split.
Qed.

End Functions.

(** *** The two functions on a small stage *)

Definition looks_stage : Prim :=
  mkPrim "/" false
    [mkPrim "/World" false
       [mkPrim "/World/Cube" false [];
        mkPrim "/World/Group" false []];
     mkPrim "/Looks" false [mkPrim "/Looks/Rubber" false []]].

(** The cube is a collider without the binding API; the group is neither. *)
Definition looks_schemas (prim_path : string) (s : Schema) (n : nat) : bool :=
  match s with
  | CollisionAPI => String.eqb prim_path "/World/Cube"
  | _ => false
  end.

Definition count_step (e : Event) (n : nat) : nat := S n.

Example bind_physics_material_collider :
  bind_physics_material looks_schemas count_step looks_stage
    "/World/Cube" "/Looks/Rubber" true {| host := 0; trace := [] |}
  = ({| host := 2;
        trace := [ApplyMaterialBindingAPI "/World/Cube";
                  Bind "/World/Cube" "/Looks/Rubber"
                    "strongerThanDescendants" "physics"] |},
     inr true).
Proof. reflexivity. Qed.

Example bind_physics_material_group :
  bind_physics_material looks_schemas count_step looks_stage
    "/World/Group" "/Looks/Rubber" false {| host := 0; trace := [] |}
  = ({| host := 0;
        trace := [LogVerbose
                    "Cannot apply physics material '/Looks/Rubber' on prim '/World/Group'. It is neither a PhysX scene, collider, a deformable body, nor a particle system."] |},
     inr false).
Proof. reflexivity. Qed.

Example bind_physics_material_missing_prim :
  bind_physics_material looks_schemas count_step looks_stage
    "/World/Ball" "/Looks/Rubber" true {| host := 0; trace := [] |}
  = ({| host := 0; trace := [] |},
     inl (ValueError "Target prim '/Looks/Rubber' does not exist.")).
Proof. reflexivity. Qed.

Example bind_visual_material_missing_material :
  bind_visual_material (fun _ _ => true) count_step looks_stage
    "/World/Cube" "/Looks/Steel" true {| host := 0; trace := [] |}
  = ({| host := 0; trace := [] |},
     inl (ValueError "Visual material '/Looks/Steel' does not exist.")).
Proof. reflexivity. Qed.

End Materials.

(** ** [tools/check_instanceable.py] *)

Module CheckInstanceable.

(** What [main] can raise: an exception of [Exc], or the [AttributeError]
    of reading an attribute the namespace does not have. *)
Inductive Failure : Type :=
| Raised (e : Exc)
| AttributeError (msg : string).

(** An [argparse.Namespace]: the attributes it has, with their values. *)
Definition Namespace : Type := list (string * PyVal).

(** [parser.parse_args()] for the parser of lines 54-59: one attribute for
    each argument the parser declares, named after it. *)
Definition parse_args (input : string) (headless : bool) (num_clones : Z)
    (spacing : Z) (physics : bool) : Namespace :=
  [("input", PyStr input);
   ("headless", PyBool headless);
   ("num_clones", PyInt num_clones);
   ("spacing", PyFloat spacing);
   ("physics", PyBool physics)].

(** [args_cli.<name>]. *)
Fixpoint getattr (args_cli : Namespace) (name : string) : Failure + PyVal :=
  match args_cli with
  | [] => inl (AttributeError
                 ("'Namespace' object has no attribute '" ++ name ++ "'")%string)
  | (attr, value) :: rest =>
      if String.eqb attr name then inr value else getattr rest name
  end.

(** The calls [main] makes up to line 106. *)
Inductive Event : Type :=
| SimulationContextInit
| EnableFlatcache (enabled : bool)
| SetCarbSetting (path : string) (value : bool)
| GridClonerInit (spacing : PyVal)
| DefineBaseEnv (path : string)
| DefinePrim (path : string)
| CreatePrim (path prim_type : string) (usd_path : option string).

Section Main.

(** The state of the host. *)
Context {Host : Type}.

(** [check_file_path], [use_gpu_pipeline] of the physics context, and
    [os.path.abspath], all answered by the host. *)
Variable check_file_path : PyVal -> Host -> bool.
Variable use_gpu_pipeline : Host -> bool.
Variable abspath : PyVal -> string.

(** How an f-string renders a value that is not a string. *)
Variable py_str : PyVal -> string.

Variable host_step : Event -> Host -> Host.

Record World : Type := mkWorld {
  host : Host;
  trace : list Event
}.

Definition Main (A : Type) : Type := World -> World * (Failure + A).

Definition pure {A : Type} (a : A) : Main A := fun w => (w, inr a).

Definition fail {A : Type} (f : Failure) : Main A := fun w => (w, inl f).

Definition and_then {A B : Type} (m : Main A) (k : A -> Main B) : Main B :=
  fun w =>
    match m w with
    | (w', inl f) => (w', inl f)
    | (w', inr a) => k a w'
    end.

Definition call (e : Event) : Main unit :=
  fun w => ({| host := host_step e (host w); trace := trace w ++ [e] |}, inr tt).

Definition read (args_cli : Namespace) (name : string) : Main PyVal :=
  fun w => (w, getattr args_cli name).

(** A value inside an f-string. *)
Definition render (v : PyVal) : string :=
  match v with PyStr s => s | _ => py_str v end.

Local Notation "x <~ m ;; k" := (and_then m (fun x => k))
  (at level 61, m at next level, right associativity).

(** [main], lines 83-106: from the check of the input file to the creation
    of the asset prim. *)
Definition main_until_asset (args_cli : Namespace) : Main unit :=
  input <~ read args_cli "input" ;;
  valid <~ (fun w => (w, inr (check_file_path input (host w)))) ;;
  _ <~ (if valid then pure tt
        else
          input' <~ read args_cli "input" ;;
          fail (Raised (ValueError
                  ("Invalid file path: " ++ render input')%string))) ;;
  _ <~ call SimulationContextInit ;;
  _ <~ (fun w => if use_gpu_pipeline (host w)
                 then call (EnableFlatcache true) w
                 else pure tt w) ;;
  _ <~ call (SetCarbSetting
               "/persistent/omnihydra/useSceneGraphInstancing" true) ;;
  spacing <~ read args_cli "spacing" ;;
  _ <~ call (GridClonerInit spacing) ;;
  _ <~ call (DefineBaseEnv "/World/envs") ;;
  _ <~ call (DefinePrim "/World/envs/env_0") ;;
  _ <~ call (CreatePrim "/World/Light" "DistantLight" None) ;;
  usd_path <~ read args_cli "usd_path" ;;
  call (CreatePrim "/World/envs/env_0/Asset" "Xform"
          (Some (abspath usd_path))).

(** The asset prim is created. *)
Definition creates_asset (e : Event) : bool :=
  match e with
  | CreatePrim path _ _ => String.eqb path "/World/envs/env_0/Asset"
  | _ => false
  end.

(** X25.  For every command line the parser accepts, [main] fails before
    the asset prim is created, so nothing is ever cloned: with an invalid
    input file it raises [ValueError] before any call; with a valid one it
    sets up the simulation, the cloner and the light, and then raises
    [AttributeError], because it reads [args_cli.usd_path] and the parser
    declares no such argument. *)
Theorem main_never_creates_the_asset
    (input : string) (headless : bool) (num_clones spacing : Z)
    (physics : bool) (h : Host) :
  let args_cli := parse_args input headless num_clones spacing physics in
  let result := main_until_asset args_cli {| host := h; trace := [] |} in
  (check_file_path (PyStr input) h = false ->
   result = ({| host := h; trace := [] |},
             inl (Raised (ValueError ("Invalid file path: " ++ input)%string))))
  /\
  (check_file_path (PyStr input) h = true ->
   snd result
     = inl (AttributeError "'Namespace' object has no attribute 'usd_path'") /\
   filter creates_asset (trace (fst result)) = [] /\
   exists before,
     trace (fst result) =
       before ++ [GridClonerInit (PyFloat spacing);
                  DefineBaseEnv "/World/envs";
                  DefinePrim "/World/envs/env_0";
                  CreatePrim "/World/Light" "DistantLight" None]).
Proof.
  intros args_cli result. subst args_cli result.
  unfold main_until_asset, and_then, read, call, pure, fail; simpl.
  destruct (check_file_path (PyStr input) h); split;
    try discriminate; intros _; [|reflexivity].
  simpl. destruct (use_gpu_pipeline _); simpl;
    (split; [reflexivity|]); (split; [reflexivity|]).
  - exists [SimulationContextInit; EnableFlatcache true;
            SetCarbSetting "/persistent/omnihydra/useSceneGraphInstancing"
              true].
    reflexivity.
  - exists [SimulationContextInit;
            SetCarbSetting "/persistent/omnihydra/useSceneGraphInstancing"
              true].
    reflexivity.
Qed.

End Main.

(** *** A run of [main] *)

Definition count_step (e : Event) (n : nat) : nat := S n.

Example main_valid_input :
  main_until_asset (fun _ _ => true) (fun _ => false) (fun _ => "/abs")
    (fun _ => "?") count_step (parse_args "robot.usd" true 128 0 false)
    {| host := 0; trace := [] |}
  = ({| host := 6;
        trace := [SimulationContextInit;
                  SetCarbSetting
                    "/persistent/omnihydra/useSceneGraphInstancing" true;
                  GridClonerInit (PyFloat 0);
                  DefineBaseEnv "/World/envs";
                  DefinePrim "/World/envs/env_0";
                  CreatePrim "/World/Light" "DistantLight" None] |},
     inl (AttributeError "'Namespace' object has no attribute 'usd_path'")).
Proof. reflexivity. Qed.

End CheckInstanceable.
